(** * color-finder: the grid detector, the colour sampler and the outlier
      classifier of [ColorAnalyzer] (src/app.py)

    The analysis core of the application is embedded as executable Rocq
    functions.  Integers of the source (pixel coordinates, indices, channel
    values) are [Z]; numpy [float64] values are represented by exact rationals
    [Q], so every sum, mean, product and quotient is the mathematical one.
    The only irrational operation of the source, [np.sqrt], is a parameter
    [sqrtf] of the development: every theorem holds for whatever function
    stands for it, and the concrete runs use a fixed-point square root.

    An image is the [height x width x 3] array [img_array]: a list of rows of
    RGB pixels. *)

From Stdlib Require Import ZArith QArith Qabs List Bool Lia Lqa.
From Stdlib Require Import Sorting.Sorted.
From Stdlib Require Import Floats.PrimFloat Floats.FloatOps Floats.SpecFloat.
From Stdlib Require Import Numbers.Cyclic.Int63.Uint63.
Import ListNotations.
Open Scope Z_scope.

(** ** Numeric helpers *)

Definition Qltb (a b : Q) : bool := (Qnum a * QDen b <? Qnum b * QDen a)%Z.
Definition Qleb (a b : Q) : bool := Qle_bool a b.
Definition Qgtb (a b : Q) : bool := Qltb b a.

(** Python's [int(x)] on a float: truncation towards zero. *)
Definition py_int (q : Q) : Z := Z.quot (Qnum q) (QDen q).

Definition zlen {A : Type} (l : list A) : Z := Z.of_nat (length l).

(** [enumerate(l)] *)
Definition enumerate {A : Type} (l : list A) : list (Z * A) :=
  combine (map Z.of_nat (seq 0 (length l))) l.

(** [range(n)] *)
Definition range (n : Z) : list Z := map Z.of_nat (seq 0 (Z.to_nat n)).

(** [l[i]] for an index that the source keeps within bounds. *)
Definition znth {A : Type} (l : list A) (i : Z) (d : A) : A := nth (Z.to_nat i) l d.

(** ** numpy primitives *)

Module Np.

(** Normalisation of a slice bound against a length: negative bounds count
    from the end, and every bound is clipped to [0, len]. *)
Definition clip_index (len i : Z) : Z :=
  if i <? 0 then Z.max 0 (i + len) else Z.min i len.

(** [l[lo:hi]] *)
Definition slice {A : Type} (lo hi : Z) (l : list A) : list A :=
  let a := clip_index (zlen l) lo in
  let b := clip_index (zlen l) hi in
  firstn (Z.to_nat (b - a)) (skipn (Z.to_nat a) l).

(** [l[lo:]] *)
Definition slice_from {A : Type} (lo : Z) (l : list A) : list A :=
  skipn (Z.to_nat (clip_index (zlen l) lo)) l.

(** [m[r0:r1, c0:c1]] *)
Definition slice2 {A : Type} (r0 r1 c0 c1 : Z) (m : list (list A)) : list (list A) :=
  map (slice c0 c1) (slice r0 r1 m).

Definition sum (l : list Q) : Q := fold_right Qplus 0%Q l.

(** [np.mean(l)]; the source only takes the mean of non-empty arrays. *)
Definition mean (l : list Q) : Q := (sum l / inject_Z (zlen l))%Q.

Fixpoint insert (x : Q) (l : list Q) : list Q :=
  match l with
  | [] => [x]
  | y :: t => if Qleb x y then x :: y :: t else y :: insert x t
  end.

(** [np.sort(l)] *)
Definition sort (l : list Q) : list Q := fold_right insert [] l.

(** [np.median(l)]: the middle element of the sorted array, or the mean of
    the two middle elements when the length is even. *)
Definition median (l : list Q) : Q :=
  let s := sort l in
  let n := length l in
  if Nat.even n
  then ((nth (n / 2 - 1) s 0 + nth (n / 2) s 0) / 2)%Q
  else nth (n / 2) s 0%Q.

(** [np.where(mask)[0].tolist()]: the indices at which the mask holds, in
    ascending order. *)
Definition where_ (mask : list bool) : list Z :=
  map fst (filter snd (enumerate mask)).

(** [np.any(l)] *)
Definition any (l : list bool) : bool := existsb (fun b => b) l.

Fixpoint first_true (l : list bool) : option Z :=
  match l with
  | [] => None
  | true :: _ => Some 0
  | false :: t => option_map Z.succ (first_true t)
  end.

(** [np.argmax(l)] on a boolean array: the first [True], or 0 when there
    is none. *)
Definition argmax_bool (l : list bool) : Z :=
  match first_true l with Some i => i | None => 0 end.

(** [np.argmax(l)] on a float array: the first index of the maximum. *)
Fixpoint argmax_from (best : Q) (besti : Z) (i : Z) (l : list Q) : Z :=
  match l with
  | [] => besti
  | x :: t => if Qltb best x then argmax_from x i (i + 1) t
              else argmax_from best besti (i + 1) t
  end.

Definition argmax (l : list Q) : Z :=
  match l with
  | [] => 0
  | x :: t => argmax_from x 0 1 t
  end.

(** [l.max()] *)
Definition maxl (l : list Q) : Q :=
  match l with
  | [] => 0%Q
  | x :: t => fold_left (fun m y => if Qltb m y then y else m) t x
  end.

(** [np.allclose(a, b)] on two scalars, with numpy's default tolerances
    [rtol = 1e-05] and [atol = 1e-08]. *)
Definition close (a b : Q) : bool :=
  Qleb (Qabs (a - b)) ((1 # 100000000) + (1 # 100000) * Qabs b)%Q.

End Np.

(** ** Images and colours *)

Definition pixel : Type := (Z * Z * Z)%type.
Definition image : Type := list (list pixel).
Definition color : Type := (Q * Q * Q)%type.
Definition rect : Type := (Z * Z * Z * Z)%type.

(** [img_array.shape[0]] and [img_array.shape[1]] *)
Definition shape0 (img : image) : Z := zlen img.
Definition shape1 (img : image) : Z := zlen (hd [] img).

(** A decoded image: at least one row, at least one column, all rows of the
    same width. *)
Definition well_formed (img : image) : Prop :=
  0 < shape0 img /\ 0 < shape1 img /\
  Forall (fun row => zlen row = shape1 img) img.

Definition chan_r (p : pixel) : Q := inject_Z (fst (fst p)).
Definition chan_g (p : pixel) : Q := inject_Z (snd (fst p)).
Definition chan_b (p : pixel) : Q := inject_Z (snd p).

(** [region.size] *)
Definition region_size (region : list (list pixel)) : Z := 3 * zlen (concat region).

(** [np.mean(region.reshape(-1, 3), axis=0)] *)
Definition mean_color (region : list (list pixel)) : color :=
  let px := concat region in
  (Np.mean (map chan_r px), Np.mean (map chan_g px), Np.mean (map chan_b px)).

(** [np.mean(img_array, axis=2)] *)
Definition to_gray (img : image) : list (list Q) :=
  map (map (fun p => Np.mean [chan_r p; chan_g p; chan_b p])) img.

Definition cr (c : color) : Q := fst (fst c).
Definition cg (c : color) : Q := snd (fst c).
Definition cb (c : color) : Q := snd c.

(** [True] counts as 1 and [False] as 0 when numpy averages a boolean array. *)
Definition b2q (b : bool) : Q := if b then 1%Q else 0%Q.

(** The columns of a two-dimensional array (what a reduction along
    [axis=0] ranges over). *)
Definition columns {A : Type} (d : A) (m : list (list A)) : list (list A) :=
  map (fun j => map (fun row => nth j row d) m) (seq 0 (length (hd [] m))).

(** [range(a, b)] *)
Definition range2 (a b : Z) : list Z :=
  map (fun k => a + Z.of_nat k) (seq 0 (Z.to_nat (b - a))).

(** A detected grid: [(rows, cols, cells)]. *)
Definition grid : Type := (Z * Z * list rect)%type.

(** ** The analyzer *)

Module ColorAnalyzer.

(** *** [_find_gaps] *)

Record gap_state : Type := mk_gap_state
  { splits : list Z; in_gap : bool; gap_start : Z }.

(** One iteration of [for i, is_gap in enumerate(gaps)]. *)
Definition gap_step (start end_ : Z) (st : gap_state) (e : Z * bool) : gap_state :=
  let (i, is_gap) := e in
  if is_gap && negb (in_gap st) then
    mk_gap_state (splits st) true i
  else if negb is_gap && in_gap st then
    let gap_mid := start + (gap_start st + i) / 2 in
    if Qgtb (inject_Z (gap_mid - last (splits st) 0))
            (inject_Z (end_ - start) * (5 # 100))
    then mk_gap_state (splits st ++ [gap_mid]) false (gap_start st)
    else mk_gap_state (splits st) false (gap_start st)
  else st.

Definition _find_gaps (gaps : list bool) (start end_ : Z) : list Z :=
  splits (fold_left (gap_step start end_) (enumerate gaps)
                    (mk_gap_state [start] false 0)) ++ [end_].

(** The cell rectangles of the gap-based strategy, row-major. *)
Definition gap_cells (h_splits v_splits : list Z) (rows cols : Z) : list rect :=
  flat_map (fun i =>
    map (fun j =>
      (znth v_splits j 0, znth h_splits i 0,
       znth v_splits (j + 1) 0 - znth v_splits j 0,
       znth h_splits (i + 1) 0 - znth h_splits i 0))
      (range cols))
    (range rows).

(** The cell rectangles of a uniform [rows x cols] partition. *)
Definition uniform_cells (rows cols ch cw : Z) : list rect :=
  flat_map (fun i => map (fun j => (j * cw, i * ch, cw, ch)) (range cols))
           (range rows).

(** The binarised image: [gray < bg_gray - 20]. *)
Definition foreground_of (img : image) : list (list bool) :=
  let gray := to_gray img in
  let corners :=
    [ map (Np.slice 0 5) (Np.slice 0 5 gray);
      map (Np.slice_from (-5)) (Np.slice 0 5 gray);
      map (Np.slice 0 5) (Np.slice_from (-5) gray);
      map (Np.slice_from (-5)) (Np.slice_from (-5) gray) ] in
  let bg_values := map (fun c => Np.mean (concat c)) corners in
  let bg_gray := Np.median bg_values in
  let threshold := (bg_gray - 20)%Q in
  map (map (fun g => Qltb g threshold)) gray.

Definition rows_with_fg (fg : list (list bool)) : list bool := map Np.any fg.
Definition cols_with_fg (fg : list (list bool)) : list bool :=
  map Np.any (columns false fg).

(** The test [not np.any(rows_with_fg) or not np.any(cols_with_fg)]. *)
Definition no_foreground (fg : list (list bool)) : bool :=
  negb (Np.any (rows_with_fg fg)) || negb (Np.any (cols_with_fg fg)).

(** The two lists of split coordinates of the gap-based strategy. *)
Definition gap_splits (fg : list (list bool)) : list Z * list Z :=
  let rw := rows_with_fg fg in
  let cl := cols_with_fg fg in
  let row_start := Np.argmax_bool rw in
  let row_end := zlen rw - Np.argmax_bool (rev rw) in
  let col_start := Np.argmax_bool cl in
  let col_end := zlen cl - Np.argmax_bool (rev cl) in
  let fg_region := Np.slice2 row_start row_end col_start col_end fg in
  let row_density := map (fun r => Np.mean (map b2q r)) fg_region in
  let row_gaps := map (fun d => Qltb d (3 # 10)) row_density in
  let col_density := map (fun c => Np.mean (map b2q c)) (columns false fg_region) in
  let col_gaps := map (fun d => Qltb d (3 # 10)) col_density in
  (_find_gaps row_gaps row_start row_end, _find_gaps col_gaps col_start col_end).

Section WithSqrt.

(** [np.sqrt] *)
Variable sqrtf : Q -> Q.

Definition sqdiff (a b : color) : Q :=
  ((cr a - cr b) ^ 2 + (cg a - cg b) ^ 2 + (cb a - cb b) ^ 2)%Q.

(** [np.sqrt(np.sum((a - b) ** 2))] *)
Definition dist (a b : color) : Q := sqrtf (sqdiff a b).

(** [np.std(l)] *)
Definition std (l : list Q) : Q :=
  let m := Np.mean l in
  sqrtf (Np.mean (map (fun x => (Qabs (x - m) ^ 2)%Q) l)).

(** [np.median(colors, axis=0)] *)
Definition median_color_of (colors : list color) : color :=
  (Np.median (map cr colors), Np.median (map cg colors), Np.median (map cb colors)).

(** *** [_score_grid] *)

(** The sampling loop of [_score_grid]: [None] stands for the early
    [return 0]. *)
Fixpoint score_colors (img : image) (cells : list rect) : option (list color) :=
  match cells with
  | [] => Some []
  | (x, y, w, h) :: rest =>
      let margin_x := py_int (inject_Z w * (15 # 100)) in
      let margin_y := py_int (inject_Z h * (15 # 100)) in
      let y1 := Z.max 0 (y + margin_y) in
      let y2 := Z.min (shape0 img) (y + h - margin_y) in
      let x1 := Z.max 0 (x + margin_x) in
      let x2 := Z.min (shape1 img) (x + w - margin_x) in
      let region := Np.slice2 y1 y2 x1 x2 img in
      if 0 <? region_size region then
        let avg_color := mean_color region in
        if Qgtb (Np.mean [cr avg_color; cg avg_color; cb avg_color]) 200
        then None
        else option_map (cons avg_color) (score_colors img rest)
      else None
  end.

Definition _score_grid (img : image) (cells : list rect) (rows cols : Z) : Q :=
  match score_colors img cells with
  | None => 0%Q
  | Some colors =>
      if negb (zlen colors =? rows * cols) then 0%Q else
      let color_std := [std (map cr colors); std (map cg colors); std (map cb colors)] in
      let avg_std := Np.mean color_std in
      let median_color := median_color_of colors in
      let distances := map (fun c => dist c median_color) colors in
      let similar_count := zlen (filter (fun d => Qltb d 80) distances) in
      let similarity := (inject_Z similar_count / inject_Z (zlen colors))%Q in
      if Qltb similarity (7 # 10) then 0%Q
      else if Qltb avg_std 5 then (similarity * (6 # 10))%Q
      else similarity
  end.

(** *** [_fallback_grid] *)

(** The pairs [(rows, cols)] in the order the two nested loops visit. *)
Definition candidates : list (Z * Z) :=
  flat_map (fun rows => map (fun cols => (rows, cols)) (range2 2 8)) (range2 2 8).

(** The body of the inner loop, on the state [(best, best_score)]. *)
Definition fallback_step (img : image) (st : option grid * Q) (rc : Z * Z)
  : option grid * Q :=
  let (rows, cols) := rc in
  if 50 <? rows * cols then st else
  let ch := shape0 img / rows in
  let cw := shape1 img / cols in
  if (ch <? 20) || (cw <? 20) then st else
  let cells := uniform_cells rows cols ch cw in
  let score := _score_grid img cells rows cols in
  if Qgtb score (snd st) then (Some (rows, cols, cells), score) else st.

Definition _fallback_grid (img : image) : option grid :=
  fst (fold_left (fallback_step img) candidates (None, 0%Q)).

(** *** [_detect_grid_simple] *)

Definition _detect_grid_simple (img : image) : option grid :=
  let foreground := foreground_of img in
  if no_foreground foreground then _fallback_grid img else
  let (h_splits, v_splits) := gap_splits foreground in
  if (zlen h_splits <? 2) || (zlen v_splits <? 2) then _fallback_grid img else
  let rows := zlen h_splits - 1 in
  let cols := zlen v_splits - 1 in
  Some (rows, cols, gap_cells h_splits v_splits rows cols).

(** *** The colour sampler (the first loop of [analyze]) *)

(** The slice bounds [(y_lo, y_hi, x_lo, x_hi)] of the sampling window of
    a cell, before they are clamped to the image. *)
Definition sample_window (cell : rect) : Z * Z * Z * Z :=
  let '(x, y, w, h) := cell in
  let mx := py_int (inject_Z w * (2 # 10)) in
  let my := py_int (inject_Z h * (2 # 10)) in
  let cx := x + w / 2 in
  let cy := y + h / 2 in
  let sample_w := Z.max 5 (w - 2 * mx) in
  let sample_h := Z.max 5 (h - 2 * my) in
  (cy - sample_h / 2, cy + sample_h / 2, cx - sample_w / 2, cx + sample_w / 2).

(** The clamped window [img_array[max(0, ..):min(shape[0], ..), ...]]. *)
Definition sample_region (img : image) (cell : rect) : list (list pixel) :=
  let '(y_lo, y_hi, x_lo, x_hi) := sample_window cell in
  Np.slice2 (Z.max 0 y_lo) (Z.min (shape0 img) y_hi)
            (Z.max 0 x_lo) (Z.min (shape1 img) x_hi) img.

Definition gray128 : color := (128%Q, 128%Q, 128%Q).

Definition sample_color (img : image) (cell : rect) : color :=
  let region := sample_region img cell in
  if 0 <? region_size region then mean_color region else gray128.

(** *** [_find_different] *)

Definition black : color := (0%Q, 0%Q, 0%Q).
Definition cnth (colors : list color) (i : Z) : color := znth colors i black.

(** Strategy 1: the mean distance of each colour to all the others. *)
Definition avg_distances_of (colors : list color) : list Q :=
  let n := zlen colors in
  map (fun i =>
         Np.mean (map (fun j => dist (cnth colors i) (cnth colors j))
                      (filter (fun j => negb (i =? j)) (range n))))
      (range n).

(** Strategy 2: z-scores of the mean distances; [Some l] is [return l]. *)
Definition strategy_zscore (avg_distances : list Q) : option (list Z) :=
  let mean_avg_dist := Np.mean avg_distances in
  let std_avg_dist := std avg_distances in
  if Qgtb std_avg_dist (1 # 10) then
    let z_scores := map (fun a => ((a - mean_avg_dist) / std_avg_dist)%Q) avg_distances in
    let outliers_z := Np.where_ (map (fun z => Qgtb z (15 # 10)) z_scores) in
    if 0 <? zlen outliers_z then Some outliers_z else None
  else None.

Definition distances_to_median_of (colors : list color) : list Q :=
  let median_color := median_color_of colors in
  map (fun c => dist c median_color) colors.

(** Strategy 3: the median absolute deviation. *)
Definition strategy_mad (distances_to_median : list Q) : option (list Z) :=
  let med := Np.median distances_to_median in
  let mad := Np.median (map (fun d => Qabs (d - med)) distances_to_median) in
  if Qgtb mad (1 # 10) then
    let modified_z :=
      map (fun d => ((6745 # 10000) * (d - med) / mad)%Q) distances_to_median in
    let outliers_mad := Np.where_ (map (fun z => Qgtb z (25 # 10)) modified_z) in
    if 0 <? zlen outliers_mad then Some outliers_mad else None
  else None.

(** Strategy 4, first part: the pair of cells that are furthest apart. *)
Definition index_pairs (n : Z) : list (Z * Z) :=
  flat_map (fun i => map (fun j => (i, j)) (range2 (i + 1) n)) (range n).

Definition pair_step (colors : list color) (st : Q * Z * Z) (ij : Z * Z)
  : Q * Z * Z :=
  let '(max_pair_dist, _, _) := st in
  let (i, j) := ij in
  let d := dist (cnth colors i) (cnth colors j) in
  if Qgtb d max_pair_dist then (d, i, j) else st.

Definition furthest_pair (colors : list color) : Q * Z * Z :=
  fold_left (pair_step colors) (index_pairs (zlen colors)) (0%Q, 0, 1).

(** [np.mean(colors[cluster], axis=0)] *)
Definition centroid (colors : list color) (cluster : list Z) : color :=
  let sel := map (cnth colors) cluster in
  (Np.mean (map cr sel), Np.mean (map cg sel), Np.mean (map cb sel)).

(** [np.allclose(a, b)] on two colours. *)
Definition allclose (a b : color) : bool :=
  Np.close (cr a) (cr b) && Np.close (cg a) (cg b) && Np.close (cb a) (cb b).

(** Strategy 4, second part: [k] rounds of the loop [for _ in range(10)];
    the result is the pair [(cluster1, cluster2)] as the loop leaves it. *)
Fixpoint kmeans (k : nat) (colors : list color) (center1 center2 : color)
         (last_clusters : list Z * list Z) : list Z * list Z :=
  match k with
  | O => last_clusters
  | S k' =>
      let dist_to_c1 := map (fun c => dist c center1) colors in
      let dist_to_c2 := map (fun c => dist c center2) colors in
      let cluster1 :=
        Np.where_ (map (fun d => Qleb (fst d) (snd d)) (combine dist_to_c1 dist_to_c2)) in
      let cluster2 :=
        Np.where_ (map (fun d => Qgtb (fst d) (snd d)) (combine dist_to_c1 dist_to_c2)) in
      if (zlen cluster1 =? 0) || (zlen cluster2 =? 0) then (cluster1, cluster2) else
      let new_center1 := centroid colors cluster1 in
      let new_center2 := centroid colors cluster2 in
      if allclose center1 new_center1 && allclose center2 new_center2
      then (cluster1, cluster2)
      else kmeans k' colors new_center1 new_center2 (cluster1, cluster2)
  end.

(** The final clusters of strategy 4. *)
Definition final_clusters (colors : list color) : list Z * list Z :=
  let '(_, center1_idx, center2_idx) := furthest_pair colors in
  kmeans 10 colors (cnth colors center1_idx) (cnth colors center2_idx) ([], []).

(** Strategy 4: [Some l] is [return l], [None] falls through. *)
Definition strategy_cluster (colors : list color) (min_threshold : Q)
  : option (list Z) :=
  let '(max_pair_dist, _, _) := furthest_pair colors in
  if Qltb max_pair_dist min_threshold then Some [] else
  let (cluster1, cluster2) := final_clusters colors in
  if (0 <? zlen cluster1) && (0 <? zlen cluster2) then
    if zlen cluster1 <? zlen cluster2 then Some cluster1
    else if zlen cluster2 <? zlen cluster1 then Some cluster2
    else None
  else None.

(** Strategy 5: the single cell furthest from the median colour. *)
Definition last_resort (distances_to_median : list Q) (min_threshold : Q) : list Z :=
  let max_idx := Np.argmax distances_to_median in
  if Qgtb (znth distances_to_median max_idx 0%Q) min_threshold then [max_idx] else [].

Definition _find_different (cell_colors : list color) (sensitivity : Q) : list Z :=
  if zlen cell_colors <? 2 then [] else
  let colors := cell_colors in
  let avg_distances := avg_distances_of colors in
  let max_avg_dist := Np.maxl avg_distances in
  let min_threshold := (10 / sensitivity)%Q in
  if Qltb max_avg_dist min_threshold then [] else
  match strategy_zscore avg_distances with
  | Some outliers_z => outliers_z
  | None =>
      let distances_to_median := distances_to_median_of colors in
      match strategy_mad distances_to_median with
      | Some outliers_mad => outliers_mad
      | None =>
          match strategy_cluster colors min_threshold with
          | Some cluster => cluster
          | None => last_resort distances_to_median min_threshold
          end
      end
  end.

(** *** [analyze] *)

(** One dictionary [{'row': .., 'col': .., 'color': 'RGB(r, g, b)'}]. *)
Record entry : Type := mk_entry { row : Z; col : Z; rgb : Z * Z * Z }.

(** The dictionary [analyze] returns; [debug_colors] is present only in
    debug mode. *)
Record analysis : Type := mk_analysis
  { grid_size : Z * Z; results : list entry; debug_colors : option (list entry) }.

Definition entry_of (cols : Z) (cell_colors : list color) (idx : Z) : entry :=
  let c := cnth cell_colors idx in
  mk_entry (idx / cols + 1) (idx mod cols + 1)
           (py_int (cr c), py_int (cg c), py_int (cb c)).

(** [analyze] on the decoded array; [None] is the error
    "no valid colour grid detected". *)
Definition analyze (img : image) (sensitivity : Q) (debug : bool) : option analysis :=
  match _detect_grid_simple img with
  | None => None
  | Some (rows, cols, cells) =>
      let cell_colors := map (sample_color img) cells in
      let different_cells := _find_different cell_colors sensitivity in
      let results := map (entry_of cols cell_colors) different_cells in
      Some (mk_analysis (rows, cols) results
              (if debug
               then Some (map (fun ic => entry_of cols cell_colors (fst ic))
                              (enumerate cell_colors))
               else None))
  end.

End WithSqrt.

End ColorAnalyzer.

(** ** A concrete square root for runs of the model

    [sqrt_fix q] is the square root of [q] rounded down to a multiple of
    [2^-10], in lowest terms; it is exact on 0 and on squares of integers. *)
Definition sqrt_fix (q : Q) : Q :=
  Qred (Qmake (Z.sqrt (Qnum q * 2 ^ 20 / QDen q)) (2 ^ 10)).

(** ** Two test images *)

(** A [h x w] image all of whose pixels are [p]. *)
Definition solid (h w : nat) (p : pixel) : image := repeat (repeat p w) h.

(** A white 10x10 image with a black 4x4 block in rows and columns 3 to 6. *)
Definition blob : image :=
  map (fun i =>
         map (fun j =>
                if (3 <=? i) && (i <? 7) && (3 <=? j) && (j <? 7)
                then (0, 0, 0) else (255, 255, 255))
             (range 10))
      (range 10).

(** A 16x16 image holding a 3x3 grid of 4x4 cells separated by white
    gutters; the centre cell is green, the others are red. *)
Definition grid3 : image :=
  let in_cell := fun k => negb (k mod 5 =? 0) in
  map (fun i =>
         map (fun j =>
                if in_cell i && in_cell j then
                  (if (i / 5 =? 1) && (j / 5 =? 1) then (50, 200, 50) else (200, 50, 50))
                else (255, 255, 255))
             (range 16))
      (range 16).

(** The brightness of a pixel: the mean of its three channels. *)
Definition brightness (p : pixel) : Q := Np.mean [chan_r p; chan_g p; chan_b p].

(** Every pixel of the matrix is [x]. *)
Definition all_equal {A : Type} (x : A) (m : list (list A)) : Prop :=
  forall row, In row m -> forall y, In y row -> y = x.

(** Whether some pixel of the binarised image is foreground. *)
Definition has_foreground (fg : list (list bool)) : bool :=
  existsb (existsb (fun b => b)) fg.

Definition rectangular {A : Type} (m : list (list A)) : Prop :=
  Forall (fun r => length r = length (hd [] m)) m.

Import ColorAnalyzer.

(** What [analyze] returns on [grid3] at sensitivity 1.5 in debug mode. *)
Definition grid3_analysis : analysis :=
  mk_analysis (3, 3)
    [mk_entry 2 2 (139, 224, 139)]
    (Some [mk_entry 1 1 (200, 50, 50); mk_entry 1 2 (213, 101, 101);
           mk_entry 1 3 (213, 101, 101); mk_entry 2 1 (213, 101, 101);
           mk_entry 2 2 (139, 224, 139); mk_entry 2 3 (224, 139, 139);
           mk_entry 3 1 (213, 101, 101); mk_entry 3 2 (224, 139, 139);
           mk_entry 3 3 (224, 139, 139)]).

(** The test the inner loop of [_fallback_grid] applies before it scores a
    candidate: neither [continue] is taken. *)
Definition considered (img : image) (rc : Z * Z) : bool :=
  let (rows, cols) := rc in
  negb (50 <? rows * cols) &&
  negb ((shape0 img / rows <? 20) || (shape1 img / cols <? 20)).

(** The candidates [_fallback_grid] scores, in the order it visits them. *)
Definition considered_candidates (img : image) : list (Z * Z) :=
  filter (considered img) candidates.

(** The grid a candidate stands for, and its score. *)
Definition candidate_grid (img : image) (rc : Z * Z) : grid :=
  let (rows, cols) := rc in
  (rows, cols, uniform_cells rows cols (shape0 img / rows) (shape1 img / cols)).

Definition candidate_score (sqrtf : Q -> Q) (img : image) (rc : Z * Z) : Q :=
  let (rows, cols) := rc in
  _score_grid sqrtf img
    (uniform_cells rows cols (shape0 img / rows) (shape1 img / cols)) rows cols.

(** The grid the gap-based strategy builds from its split coordinates. *)
Definition gap_grid (fg : list (list bool)) : grid :=
  let (h_splits, v_splits) := gap_splits fg in
  let rows := zlen h_splits - 1 in
  let cols := zlen v_splits - 1 in
  (rows, cols, gap_cells h_splits v_splits rows cols).

(** The sample size the specification states for a cell side [w]:
    [max(5, w - 2*mx)] with the untruncated margin [mx = 0.2*w]. *)
Definition claimed_sample_size (w : Z) : Q :=
  let e := (inject_Z w - 2 * ((2 # 10) * inject_Z w))%Q in
  if Qltb 5 e then e else 5%Q.

(** A list of cell indices in strictly ascending order, all below [n]. *)
Definition ascending_below (n : Z) (l : list Z) : Prop :=
  StronglySorted Z.lt l /\ Forall (fun i => 0 <= i < n) l.

(** Two index lists that [np.where] extracts from a mask of length [n] and
    from its negation. *)
Definition complementary (n : nat) (a b : list Z) : Prop :=
  exists m, length m = n /\ a = Np.where_ m /\ b = Np.where_ (map negb m).

(** Row-major order on the reported entries. *)
Definition entry_lt (e1 e2 : entry) : Prop :=
  row e1 < row e2 \/ (row e1 = row e2 /\ col e1 < col e2).

(** Ascending [(rows, cols)] order. *)
Definition lex_lt (a b : Z * Z) : Prop :=
  fst a < fst b \/ (fst a = fst b /\ snd a < snd b).

(** The update [if score > best_score: best_score = score; best = ...]. *)
Definition pick {A B : Type} (val : A -> B) (sc : A -> Q)
           (st : option B * Q) (x : A) : option B * Q :=
  if Qgtb (sc x) (snd st) then (Some (val x), sc x) else st.

(** A cell rectangle of positive size that lies inside the image. *)
Definition cell_inside (img : image) (cell : rect) : Prop :=
  let '(x, y, w, h) := cell in
  0 <= x /\ 0 <= y /\ 0 < w /\ 0 < h /\ x + w <= shape1 img /\ y + h <= shape0 img.

(** Channel values of a decoded 8-bit image. *)
Definition valid_pixel (p : pixel) : Prop :=
  let '(r, g, b) := p in 0 <= r <= 255 /\ 0 <= g <= 255 /\ 0 <= b <= 255.

Definition valid_image (img : image) : Prop :=
  forall row, In row img -> forall p, In p row -> valid_pixel p.

(** The three integers of a reported ['RGB(r, g, b)'] are 8-bit values. *)
Definition rgb_in_range (e : entry) : Prop :=
  let '(r, g, b) := rgb e in 0 <= r <= 255 /\ 0 <= g <= 255 /\ 0 <= b <= 255.

(** What the loop of [_find_gaps] keeps true of its state before it reads
    the element of index [k]: the splits start at [start], ascend strictly,
    stay below [start + max(k, 1)], each accepted split is more than 5% of
    the span after the previous one, and an open gap began before [k]. *)
Definition gap_invariant (start end_ : Z) (k : nat) (st : gap_state) : Prop :=
  (exists mid, splits st = start :: mid) /\
  StronglySorted Z.lt (splits st) /\
  Forall (fun s => s < start + Z.max (Z.of_nat k) 1) (splits st) /\
  (in_gap st = true -> gap_start st < Z.of_nat k) /\
  Qle (inject_Z (zlen (splits st) - 1) * (inject_Z (end_ - start) * (5 # 100)))
      (inject_Z (last (splits st) 0 - start)).

(** ** The result panel ([MainWindow.analyze]) *)

Module MainWindow.

(** One piece of the text set on the result label.  Each constructor stands
    for one f-string of the source and carries the values it interpolates:
    the error message; the grid header of debug mode; a debug line
    [f"{marker} [{row},{col}] {color}"] with whether the marker is the target
    sign; the line telling how many cells are left out; the grid header; one
    outlier line; the message that all cells have the same colour. *)
Inductive display_line : Type :=
| LineError : display_line
| LineGridDebug : Z * Z -> display_line
| LineCell : bool -> entry -> display_line
| LineMore : Z -> display_line
| LineGrid : Z * Z -> display_line
| LineHit : entry -> display_line
| LineAllSame : Z * Z -> display_line.

(** [any(r['row'] == info['row'] and r['col'] == info['col'] for r in results)] *)
Definition is_marked (results : list entry) (info : entry) : bool :=
  existsb (fun r => (row r =? row info) && (col r =? col info)) results.

(** The branches of [MainWindow.analyze] after the call of
    [ColorAnalyzer.analyze]; [None] is the error result. *)
Definition result_lines (result : option analysis) (debug_mode : bool) : list display_line :=
  match result with
  | None => [LineError]
  | Some result =>
      match debug_mode, debug_colors result with
      | true, Some all_colors =>
          LineGridDebug (grid_size result)
          :: map (fun info => LineCell (is_marked (results result) info) info)
                 (Np.slice 0 20 all_colors)
          ++ (if 20 <? zlen all_colors then [LineMore (zlen all_colors - 20)] else [])
      | _, _ =>
          match results result with
          | [] => [LineAllSame (grid_size result)]
          | _ :: _ => LineGrid (grid_size result) :: map LineHit (results result)
          end
      end
  end.

(** [MainWindow.analyze]: nothing happens without a current image ([None]);
    otherwise the lines shown on the result label. *)
Definition analyze (sqrtf : Q -> Q) (current_pixmap : option image) (sensitivity : Q)
           (debug_mode : bool) : option (list display_line) :=
  match current_pixmap with
  | None => None
  | Some pixmap =>
      Some (result_lines (ColorAnalyzer.analyze sqrtf pixmap sensitivity debug_mode) debug_mode)
  end.

End MainWindow.

(** ** Percentages and tenths stored as Python floats

    The DPI dialog and the sensitivity slider hold integers and the settings
    hold floats; here the floats are IEEE binary64 numbers, as in Python. *)

(** [float(z)] for a small non-negative integer. *)
Definition float_of_Z (z : Z) : float := PrimFloat.of_uint63 (Uint63.of_Z z).

(** [int(f)] on a float: truncation towards zero. *)
Definition int_of_float (f : float) : Z :=
  match Prim2SF f with
  | S754_finite s m e =>
      let v := if 0 <=? e then Z.pos m * 2 ^ e else Z.pos m / 2 ^ (- e) in
      if s then - v else v
  | _ => 0
  end.

Module CalibrationDialog.

(** [QSpinBox.setValue] on a spin box with [setRange(50, 300)]: the value is
    brought into the range. *)
Definition setValue (v : Z) : Z := Z.max 50 (Z.min 300 v).

(** [get_scale], for one spin box holding [value]. *)
Definition get_scale (value : Z) : float :=
  PrimFloat.div (float_of_Z value) (float_of_Z 100).

(** [set_scale], for one spin box: the value it holds afterwards. *)
Definition set_scale (sx : float) : Z :=
  setValue (int_of_float (PrimFloat.mul sx (float_of_Z 100))).

End CalibrationDialog.

(** The percentages that lose one percent when they are stored as a scale
    factor and put back into the dialog. *)
Definition lossy_percentages : list Z :=
  [57; 58; 113; 114; 115; 116; 201; 203; 205; 207; 226; 228; 230; 232; 251; 253; 255].

(** [on_sensitivity_changed]: the sensitivity for a slider position. *)
Definition sensitivity_of_slider (value : Z) : float :=
  PrimFloat.div (float_of_Z value) (float_of_Z 10).

(** [int(self.sensitivity * 10)], the slider position [init_ui] restores. *)
Definition slider_of_sensitivity (sensitivity : float) : Z :=
  int_of_float (PrimFloat.mul sensitivity (float_of_Z 10)).

(** A 31x31 image holding a 3x3 grid of 9x9 red cells separated by white
    gutters one pixel wide. *)
Definition grid3_uniform : image :=
  map (fun i =>
         map (fun j =>
                if (i mod 10 =? 0) || (j mod 10 =? 0)
                then (255, 255, 255) else (200, 50, 50))
             (range 31))
      (range 31).

Definition pixel_eqb (p q : pixel) : bool :=
  (fst (fst p) =? fst (fst q)) && (snd (fst p) =? snd (fst q)) && (snd p =? snd q).

(** ** Lists, ranges and lengths *)

Lemma zlen_nonneg {A : Type} (l : list A) : 0 <= zlen l.
Proof. unfold zlen. lia. Qed.

Lemma zlen_app {A : Type} (l1 l2 : list A) : zlen (l1 ++ l2) = zlen l1 + zlen l2.
Proof. unfold zlen. rewrite length_app. lia. Qed.

Lemma zlen_map {A B : Type} (f : A -> B) (l : list A) : zlen (map f l) = zlen l.
Proof. unfold zlen. now rewrite length_map. Qed.

Lemma length_range (n : Z) : length (range n) = Z.to_nat n.
Proof. unfold range. now rewrite length_map, length_seq. Qed.

Lemma zlen_range (n : Z) : 0 <= n -> zlen (range n) = n.
Proof. intros H. unfold zlen. rewrite length_range. lia. Qed.

Lemma length_enumerate {A : Type} (l : list A) : length (enumerate l) = length l.
Proof.
  unfold enumerate. rewrite length_combine, length_map, length_seq. apply Nat.min_id.
Qed.

Lemma length_flat_map_const {A B : Type} (f : A -> list B) (k : nat) (l : list A) :
  (forall x, length (f x) = k) -> length (flat_map f l) = (length l * k)%nat.
Proof.
  intros Hk. induction l as [| a l IH]; simpl; [reflexivity |].
  rewrite length_app, Hk, IH. reflexivity.
Qed.

Lemma zlen_gap_cells (h v : list Z) (rows cols : Z) :
  0 <= rows -> 0 <= cols -> zlen (gap_cells h v rows cols) = rows * cols.
Proof.
  intros Hr Hc. unfold zlen, gap_cells.
  rewrite (length_flat_map_const _ (Z.to_nat cols)).
  - rewrite length_range. lia.
  - intros i. now rewrite length_map, length_range.
Qed.

Lemma zlen_uniform_cells (rows cols ch cw : Z) :
  0 <= rows -> 0 <= cols -> zlen (uniform_cells rows cols ch cw) = rows * cols.
Proof.
  intros Hr Hc. unfold zlen, uniform_cells.
  rewrite (length_flat_map_const _ (Z.to_nat cols)).
  - rewrite length_range. lia.
  - intros i. now rewrite length_map, length_range.
Qed.

(** ** [_find_gaps] *)

Lemma gap_step_splits_nonempty (s e : Z) (st : gap_state) (x : Z * bool) :
  (1 <= length (splits st))%nat -> (1 <= length (splits (gap_step s e st x)))%nat.
Proof.
  intros H. unfold gap_step. destruct x as [i g].
  destruct (g && negb (in_gap st)); [exact H |].
  destruct (negb g && in_gap st); [| exact H].
  match goal with |- context [if ?c then _ else _] => destruct c end; simpl;
    [rewrite length_app; simpl; lia | exact H].
Qed.

Lemma gap_loop_splits_nonempty (s e : Z) (l : list (Z * bool)) (st : gap_state) :
  (1 <= length (splits st))%nat ->
  (1 <= length (splits (fold_left (gap_step s e) l st)))%nat.
Proof.
  revert st. induction l as [| x l IH]; intros st H; simpl; [exact H |].
  apply IH, gap_step_splits_nonempty, H.
Qed.

Lemma find_gaps_length (gaps : list bool) (s e : Z) : 2 <= zlen (_find_gaps gaps s e).
Proof.
  unfold _find_gaps. rewrite zlen_app.
  pose proof (gap_loop_splits_nonempty s e (enumerate gaps) (mk_gap_state [s] false 0)) as H.
  simpl in H. specialize (H (le_n 1)). unfold zlen at 1 2. simpl. lia.
Qed.

(** ** The foreground test *)

Lemma any_true_iff (l : list bool) : Np.any l = true <-> In true l.
Proof.
  unfold Np.any. rewrite existsb_exists. split.
  - intros [b [Hin Hb]]. now subst.
  - intros H. now exists true.
Qed.

Lemma any_rows_has_foreground (fg : list (list bool)) :
  Np.any (rows_with_fg fg) = has_foreground fg.
Proof.
  unfold rows_with_fg, has_foreground, Np.any.
  induction fg as [| r fg IH]; simpl; [reflexivity |]. now rewrite IH.
Qed.

Lemma any_cols_has_foreground (fg : list (list bool)) :
  rectangular fg -> Np.any (cols_with_fg fg) = has_foreground fg.
Proof.
  intros Hrect. apply eq_true_iff_eq.
  rewrite any_true_iff. unfold cols_with_fg, has_foreground.
  rewrite in_map_iff, existsb_exists. split.
  - intros [c [Hany Hc]]. unfold columns in Hc. apply in_map_iff in Hc.
    destruct Hc as [j [Hj Hin]]. subst c. apply any_true_iff in Hany.
    apply in_map_iff in Hany. destruct Hany as [r [Hnth Hr]].
    exists r. split; [exact Hr |]. apply existsb_exists. exists true. split; [| reflexivity].
    destruct (Nat.lt_ge_cases j (length r)) as [Hlt | Hge].
    + rewrite <- Hnth. now apply nth_In.
    + rewrite nth_overflow in Hnth by exact Hge. discriminate.
  - intros [r [Hr Hex]]. apply existsb_exists in Hex. destruct Hex as [b [Hb Hbt]].
    subst b. destruct (In_nth _ _ false Hb) as [j [Hj Hnth]].
    exists (map (fun row => nth j row false) fg). split.
    + apply any_true_iff. apply in_map_iff. exists r. split; assumption.
    + unfold columns. apply in_map_iff. exists j. split; [reflexivity |].
      apply in_seq. unfold rectangular in Hrect. rewrite Forall_forall in Hrect.
      rewrite <- (Hrect r Hr). lia.
Qed.

Lemma no_foreground_spec (fg : list (list bool)) :
  rectangular fg -> no_foreground fg = negb (has_foreground fg).
Proof.
  intros Hrect. unfold no_foreground.
  rewrite any_rows_has_foreground, (any_cols_has_foreground fg Hrect).
  now destruct (has_foreground fg).
Qed.

Lemma foreground_rectangular (img : image) : well_formed img -> rectangular (foreground_of img).
Proof.
  intros (_ & _ & Hrows). unfold rectangular, foreground_of, to_gray.
  rewrite !map_map. apply Forall_forall. intros r Hr.
  apply in_map_iff in Hr. destruct Hr as [row [Hrow Hin]]. subst r.
  rewrite Forall_forall in Hrows. pose proof (Hrows row Hin) as Hlen.
  rewrite !length_map. unfold shape1, zlen in Hlen.
  destruct img as [| r0 img']; simpl in *; [contradiction |].
  rewrite !length_map. lia.
Qed.

(** ** Comparisons on [Q] *)

Lemma Qltb_lt (a b : Q) : Qltb a b = true <-> (a < b)%Q.
Proof. unfold Qltb, Qlt. apply Z.ltb_lt. Qed.

Lemma Qltb_ge (a b : Q) : Qltb a b = false <-> (b <= a)%Q.
Proof. unfold Qltb, Qle. apply Z.ltb_ge. Qed.

Lemma Qgtb_gt (a b : Q) : Qgtb a b = true <-> (b < a)%Q.
Proof. apply Qltb_lt. Qed.

Lemma Qgtb_le (a b : Q) : Qgtb a b = false <-> (a <= b)%Q.
Proof. apply Qltb_ge. Qed.

Lemma Qleb_le (a b : Q) : Qleb a b = true <-> (a <= b)%Q.
Proof. apply Qle_bool_iff. Qed.

(** ** The selection loop of [_fallback_grid] *)

Section Pick.

Context {A B : Type} (val : A -> B) (sc : A -> Q).

Lemma pick_fold_spec (l : list A) (b : option B) (s : Q) :
  (fold_left (pick val sc) l (b, s) = (b, s) /\ forall x, In x l -> (sc x <= s)%Q)
  \/ (exists pre x post,
        l = pre ++ x :: post /\
        fold_left (pick val sc) l (b, s) = (Some (val x), sc x) /\
        (s < sc x)%Q /\
        (forall y, In y pre -> (sc y < sc x)%Q) /\
        (forall y, In y post -> (sc y <= sc x)%Q)).
Proof.
  revert b s. induction l as [| x t IH]; intros b s.
  - left. split; [reflexivity | intros x []].
  - simpl. destruct (Qgtb (sc x) s) eqn:E.
    + assert (pick val sc (b, s) x = (Some (val x), sc x)) as ->
        by (unfold pick; simpl; now rewrite E).
      apply Qgtb_gt in E. right.
      destruct (IH (Some (val x)) (sc x)) as [[Hf Hall] | (pre & y & post & Hl & Hf & Hlt & Hpre & Hpost)].
      * exists [], x, t.
        split; [reflexivity |]. split; [exact Hf |]. split; [exact E |].
        split; [intros y [] | exact Hall].
      * exists (x :: pre), y, post. subst t.
        split; [reflexivity |]. split; [exact Hf |]. split; [lra |].
        split; [| exact Hpost].
        intros z [Hz | Hz]; [subst z; exact Hlt | now apply Hpre].
    + assert (pick val sc (b, s) x = (b, s)) as ->
        by (unfold pick; simpl; now rewrite E).
      apply Qgtb_le in E.
      destruct (IH b s) as [[Hf Hall] | (pre & y & post & Hl & Hf & Hlt & Hpre & Hpost)].
      * left. split; [exact Hf |]. intros z [Hz | Hz]; [now subst z | now apply Hall].
      * right. exists (x :: pre), y, post. subst t.
        split; [reflexivity |]. split; [exact Hf |]. split; [exact Hlt |].
        split; [| exact Hpost].
        intros z [Hz | Hz]; [subst z; lra | now apply Hpre].
Qed.

End Pick.

Lemma fallback_step_pick (sqrtf : Q -> Q) (img : image) (l : list (Z * Z)) (st : option grid * Q) :
  fold_left (fallback_step sqrtf img) l st =
  fold_left (pick (candidate_grid img) (candidate_score sqrtf img))
            (filter (considered img) l) st.
Proof.
  revert st. induction l as [| [rows cols] l IH]; intros st; simpl; [reflexivity |].
  destruct (50 <? rows * cols) eqn:E1; simpl; [apply IH |].
  destruct ((shape0 img / rows <? 20) || (shape1 img / cols <? 20)) eqn:E2; simpl;
    [apply IH |].
  rewrite IH. reflexivity.
Qed.

Lemma fallback_grid_pick (sqrtf : Q -> Q) (img : image) :
  _fallback_grid sqrtf img =
  fst (fold_left (pick (candidate_grid img) (candidate_score sqrtf img))
                 (considered_candidates img) (None, 0%Q)).
Proof. unfold _fallback_grid. now rewrite fallback_step_pick. Qed.

Lemma candidates_spec (rows cols : Z) :
  In (rows, cols) candidates <-> (2 <= rows <= 7 /\ 2 <= cols <= 7).
Proof.
  split.
  - intros H. vm_compute in H.
    repeat (destruct H as [H | H]; [injection H as <- <-; lia |]). contradiction.
  - intros [Hr Hc].
    assert (rows = 2 \/ rows = 3 \/ rows = 4 \/ rows = 5 \/ rows = 6 \/ rows = 7) as Hr' by lia.
    assert (cols = 2 \/ cols = 3 \/ cols = 4 \/ cols = 5 \/ cols = 6 \/ cols = 7) as Hc' by lia.
    clear Hr Hc.
    repeat (destruct Hr' as [-> | Hr']); try subst rows;
      repeat (destruct Hc' as [-> | Hc']); try subst cols;
      vm_compute; tauto.
Qed.

Lemma considered_candidates_spec (img : image) (rows cols : Z) :
  In (rows, cols) (considered_candidates img) <->
  (2 <= rows <= 7 /\ 2 <= cols <= 7 /\ rows * cols <= 50 /\
   20 <= shape0 img / rows /\ 20 <= shape1 img / cols).
Proof.
  unfold considered_candidates. rewrite filter_In, candidates_spec. unfold considered.
  rewrite andb_true_iff, !negb_true_iff, orb_false_iff, !Z.ltb_ge. tauto.
Qed.

Lemma fallback_grid_shape (sqrtf : Q -> Q) (img : image) (rows cols : Z) (cells : list rect) :
  _fallback_grid sqrtf img = Some (rows, cols, cells) ->
  In (rows, cols) (considered_candidates img) /\
  cells = uniform_cells rows cols (shape0 img / rows) (shape1 img / cols).
Proof.
  rewrite fallback_grid_pick.
  destruct (pick_fold_spec (candidate_grid img) (candidate_score sqrtf img)
              (considered_candidates img) None 0%Q)
    as [[Hf _] | (pre & [r c] & post & Hl & Hf & _)]; rewrite Hf; simpl; [discriminate |].
  intros H. unfold candidate_grid in H. inversion H; subst rows cols. split; [| reflexivity].
  rewrite Hl. apply in_or_app. right. now left.
Qed.

(** ** The two strategies of [_detect_grid_simple] *)

Lemma gap_loop_splits_head (s e : Z) (l : list (Z * bool)) (st : gap_state) :
  (exists mid, splits st = s :: mid) ->
  exists mid, splits (fold_left (gap_step s e) l st) = s :: mid.
Proof.
  revert st. induction l as [| [i g] l IH]; intros st H; simpl; [exact H |].
  apply IH. destruct H as [mid Hmid].
  destruct (g && negb (in_gap st)); [now exists mid |].
  destruct (negb g && in_gap st); [| now exists mid].
  match goal with |- context [if ?c then _ else _] => destruct c end; simpl.
  - exists (mid ++ [s + (gap_start st + i) / 2]). now rewrite Hmid.
  - now exists mid.
Qed.

Lemma find_gaps_ends (gaps : list bool) (s e : Z) :
  exists mid, _find_gaps gaps s e = s :: mid ++ [e].
Proof.
  unfold _find_gaps.
  destruct (gap_loop_splits_head s e (enumerate gaps) (mk_gap_state [s] false 0))
    as [mid Hmid]; [now exists [] |].
  exists mid. now rewrite Hmid.
Qed.

Lemma gap_splits_lengths (fg : list (list bool)) :
  2 <= zlen (fst (gap_splits fg)) /\ 2 <= zlen (snd (gap_splits fg)).
Proof. unfold gap_splits. cbv zeta. cbn [fst snd]. split; apply find_gaps_length. Qed.

Lemma detect_grid_cases (sqrtf : Q -> Q) (img : image) :
  _detect_grid_simple sqrtf img =
  if no_foreground (foreground_of img)
  then _fallback_grid sqrtf img
  else Some (gap_grid (foreground_of img)).
Proof.
  unfold _detect_grid_simple, gap_grid.
  destruct (no_foreground (foreground_of img)); [reflexivity |].
  pose proof (gap_splits_lengths (foreground_of img)) as [Hh Hv].
  destruct (gap_splits (foreground_of img)) as [h v]. simpl in Hh, Hv.
  assert ((zlen h <? 2) || (zlen v <? 2) = false) as ->; [| reflexivity].
  apply orb_false_iff. split; apply Z.ltb_ge; assumption.
Qed.

Lemma gap_grid_shape (fg : list (list bool)) (rows cols : Z) (cells : list rect) :
  gap_grid fg = (rows, cols, cells) ->
  1 <= rows /\ 1 <= cols /\ zlen cells = rows * cols.
Proof.
  unfold gap_grid. pose proof (gap_splits_lengths fg) as [Hh Hv].
  destruct (gap_splits fg) as [h v]. simpl in Hh, Hv.
  intros H. inversion H; subst.
  split; [lia |]. split; [lia |]. apply zlen_gap_cells; lia.
Qed.

Lemma detect_grid_shape (sqrtf : Q -> Q) (img : image) (rows cols : Z) (cells : list rect) :
  _detect_grid_simple sqrtf img = Some (rows, cols, cells) ->
  1 <= rows /\ 1 <= cols /\ zlen cells = rows * cols.
Proof.
  rewrite detect_grid_cases. destruct (no_foreground (foreground_of img)).
  - intros H. apply fallback_grid_shape in H. destruct H as [Hin ->].
    apply considered_candidates_spec in Hin.
    split; [lia |]. split; [lia |]. apply zlen_uniform_cells; lia.
  - remember (gap_grid (foreground_of img)) as g eqn:Hg.
    intros H. injection H as H. rewrite Hg in H. apply gap_grid_shape in H. exact H.
Qed.

Lemma blob_well_formed : well_formed blob.
Proof.
  unfold well_formed. split; [reflexivity |]. split; [reflexivity |].
  vm_compute. repeat constructor.
Qed.

(** ** Grid completeness *)

(** C1: whenever [analyze] succeeds, the detected grid has exactly
    [rows * cols] cells, the sampler yields one colour per cell, and in debug
    mode the list of all colours has [rows * cols] entries as well. *)
Theorem analyze_grid_complete (sqrtf : Q -> Q) (img : image) (sensitivity : Q)
        (debug : bool) (a : analysis) :
  analyze sqrtf img sensitivity debug = Some a ->
  exists rows cols cells,
    _detect_grid_simple sqrtf img = Some (rows, cols, cells) /\
    grid_size a = (rows, cols) /\
    zlen cells = rows * cols /\
    zlen (map (sample_color img) cells) = rows * cols /\
    (debug = true ->
     exists all_colors, debug_colors a = Some all_colors /\ zlen all_colors = rows * cols).
Proof.
  unfold analyze. destruct (_detect_grid_simple sqrtf img) as [[[rows cols] cells] |] eqn:E;
    [| discriminate].
  intros H. injection H as <-. exists rows, cols, cells.
  destruct (detect_grid_shape _ _ _ _ _ E) as (_ & _ & Hlen).
  cbn [grid_size debug_colors].
  split; [reflexivity |]. split; [reflexivity |]. split; [exact Hlen |]. split.
  - now rewrite zlen_map.
  - intros ->. eexists. split; [reflexivity |].
    rewrite zlen_map. unfold zlen. rewrite length_enumerate, length_map. exact Hlen.
Qed.

Lemma analyze_grid_complete_witness :
  exists rows cols cells,
    _detect_grid_simple sqrt_fix blob = Some (rows, cols, cells) /\
    grid_size (mk_analysis (1, 1) [] (Some [mk_entry 1 1 (0, 0, 0)])) = (rows, cols) /\
    zlen cells = rows * cols /\
    zlen (map (sample_color blob) cells) = rows * cols /\
    (true = true ->
     exists all_colors,
       debug_colors (mk_analysis (1, 1) [] (Some [mk_entry 1 1 (0, 0, 0)])) = Some all_colors /\
       zlen all_colors = rows * cols).
Proof.
  apply (analyze_grid_complete sqrt_fix blob (15 # 10) true). vm_compute. reflexivity.
Defined.

(** ** Grid sizes of the gap-based strategy *)

(** C2, as the code has it: a grid produced by the gap-based strategy (the
    image has foreground, so the fallback is not used) has at least one row
    and at least one column. *)
Theorem gap_grid_at_least_one_row_and_col (sqrtf : Q -> Q) (img : image)
        (rows cols : Z) (cells : list rect) :
  no_foreground (foreground_of img) = false ->
  _detect_grid_simple sqrtf img = Some (rows, cols, cells) ->
  1 <= rows /\ 1 <= cols.
Proof.
  intros Hfg. rewrite detect_grid_cases, Hfg.
  remember (gap_grid (foreground_of img)) as g eqn:Hg.
  intros H. injection H as H. rewrite Hg in H. apply gap_grid_shape in H.
  destruct H as (Hr & Hc & _). split; assumption.
Qed.

Lemma gap_grid_at_least_one_row_and_col_witness :
  no_foreground (foreground_of blob) = false /\
  _detect_grid_simple sqrt_fix blob = Some (1, 1, [(3, 3, 4, 4)]) /\
  1 <= 1 /\ 1 <= 1.
Proof.
  assert (no_foreground (foreground_of blob) = false) as H1 by (vm_compute; reflexivity).
  assert (_detect_grid_simple sqrt_fix blob = Some (1, 1, [(3, 3, 4, 4)])) as H2
    by (vm_compute; reflexivity).
  split; [exact H1 |]. split; [exact H2 |].
  exact (gap_grid_at_least_one_row_and_col sqrt_fix blob 1 1 [(3, 3, 4, 4)] H1 H2).
Defined.

(** The claim C2 as written fails: on [blob] the gap-based strategy finds
    foreground and returns a 1x1 grid. *)
Lemma gap_grid_two_rows_counterexample :
  ~ (forall (sqrtf : Q -> Q) (img : image) (rows cols : Z) (cells : list rect),
        no_foreground (foreground_of img) = false ->
        _detect_grid_simple sqrtf img = Some (rows, cols, cells) ->
        2 <= rows /\ 2 <= cols).
Proof.
  intros H.
  assert (2 <= 1 /\ 2 <= 1) as [H1 _]; [| lia].
  apply (H sqrt_fix blob 1 1 [(3, 3, 4, 4)]); vm_compute; reflexivity.
Qed.

(** ** The splits of [_find_gaps] and the unreachable fallback branch *)

(** C10: [_find_gaps] returns at least two split coordinates, the first
    being [start] and the last [end]; hence the test [len(h_splits) < 2 or
    len(v_splits) < 2] of [_detect_grid_simple] never holds, and the gap-based
    path calls [_fallback_grid] exactly when no pixel is foreground. *)
Theorem find_gaps_two_splits_fallback_only_without_foreground
        (sqrtf : Q -> Q) (img : image) :
  well_formed img ->
  (forall gaps start end_,
      2 <= zlen (_find_gaps gaps start end_) /\
      exists mid, _find_gaps gaps start end_ = start :: mid ++ [end_]) /\
  (zlen (fst (gap_splits (foreground_of img))) <? 2) ||
  (zlen (snd (gap_splits (foreground_of img))) <? 2) = false /\
  _detect_grid_simple sqrtf img =
    if has_foreground (foreground_of img)
    then Some (gap_grid (foreground_of img))
    else _fallback_grid sqrtf img.
Proof.
  intros Hwf. split; [| split].
  - intros gaps s e. split; [apply find_gaps_length | apply find_gaps_ends].
  - destruct (gap_splits_lengths (foreground_of img)) as [Hh Hv].
    apply orb_false_iff. split; apply Z.ltb_ge; assumption.
  - rewrite detect_grid_cases, no_foreground_spec by now apply foreground_rectangular.
    now destruct (has_foreground (foreground_of img)).
Qed.

Lemma find_gaps_two_splits_fallback_only_without_foreground_witness :
  (forall gaps start end_,
      2 <= zlen (_find_gaps gaps start end_) /\
      exists mid, _find_gaps gaps start end_ = start :: mid ++ [end_]) /\
  (zlen (fst (gap_splits (foreground_of blob))) <? 2) ||
  (zlen (snd (gap_splits (foreground_of blob))) <? 2) = false /\
  _detect_grid_simple sqrt_fix blob =
    if has_foreground (foreground_of blob)
    then Some (gap_grid (foreground_of blob))
    else _fallback_grid sqrt_fix blob.
Proof.
  exact (find_gaps_two_splits_fallback_only_without_foreground sqrt_fix blob blob_well_formed).
Defined.

(** ** The brute-force fallback *)

Lemma StronglySorted_filter {A : Type} (R : A -> A -> Prop) (f : A -> bool) (l : list A) :
  StronglySorted R l -> StronglySorted R (filter f l).
Proof.
  induction 1 as [| a l Hs IH Hall]; simpl; [constructor |].
  destruct (f a); [| exact IH].
  constructor; [exact IH |].
  rewrite Forall_forall in *. intros x Hx. apply filter_In in Hx. now apply Hall.
Qed.

Lemma candidates_sorted : StronglySorted lex_lt candidates.
Proof.
  vm_compute candidates.
  repeat (constructor; [| repeat (constructor; [unfold lex_lt; simpl; lia |]); constructor]).
  constructor.
Qed.

(** C6: [_fallback_grid] scores exactly the candidates with [rows] and [cols]
    in 2..7, [rows * cols <= 50] and both cell dimensions at least 20 pixels,
    in ascending [(rows, cols)] order; it fails exactly when none of them
    scores above 0, and otherwise returns a candidate whose score is positive,
    strictly above the score of every candidate visited before it and at
    least the score of every candidate visited after it. *)
Theorem fallback_grid_best_candidate (sqrtf : Q -> Q) (img : image) :
  (forall rows cols,
      In (rows, cols) (considered_candidates img) <->
      (2 <= rows <= 7 /\ 2 <= cols <= 7 /\ rows * cols <= 50 /\
       20 <= shape0 img / rows /\ 20 <= shape1 img / cols)) /\
  StronglySorted lex_lt (considered_candidates img) /\
  _fallback_grid sqrtf img =
    fst (fold_left (pick (candidate_grid img) (candidate_score sqrtf img))
                   (considered_candidates img) (None, 0%Q)) /\
  (_fallback_grid sqrtf img = None <->
   forall rc, In rc (considered_candidates img) -> (candidate_score sqrtf img rc <= 0)%Q) /\
  (forall g, _fallback_grid sqrtf img = Some g ->
     exists pre rc post,
       considered_candidates img = pre ++ rc :: post /\
       g = candidate_grid img rc /\
       (0 < candidate_score sqrtf img rc)%Q /\
       (forall y, In y pre -> (candidate_score sqrtf img y < candidate_score sqrtf img rc)%Q) /\
       (forall y, In y post -> (candidate_score sqrtf img y <= candidate_score sqrtf img rc)%Q)).
Proof.
  split; [apply considered_candidates_spec |].
  split; [apply StronglySorted_filter, candidates_sorted |].
  split; [apply fallback_grid_pick |].
  rewrite fallback_grid_pick.
  destruct (pick_fold_spec (candidate_grid img) (candidate_score sqrtf img)
              (considered_candidates img) None 0%Q)
    as [[Hf Hall] | (pre & rc & post & Hl & Hf & Hlt & Hpre & Hpost)]; rewrite Hf; simpl fst.
  - split; [split; [intros _; exact Hall | reflexivity] | discriminate].
  - split.
    + split; [discriminate |]. intros Hall. exfalso.
      assert (candidate_score sqrtf img rc <= 0)%Q as Hle
          by (apply Hall; rewrite Hl; apply in_or_app; right; now left).
      lra.
    + intros g Hg. remember (candidate_grid img rc) as g' eqn:Hg'.
      injection Hg as <-. exists pre, rc, post.
      split; [exact Hl |]. split; [exact Hg' |]. split; [exact Hlt |].
      split; assumption.
Qed.

(** ** [np.where]: ascending indices within range *)

Lemma where_from_cons (k : nat) (b : bool) (m : list bool) :
  map fst (filter snd (combine (map Z.of_nat (seq k (length (b :: m)))) (b :: m))) =
  (if b then [Z.of_nat k] else []) ++
  map fst (filter snd (combine (map Z.of_nat (seq (S k) (length m))) m)).
Proof. cbn [length seq map combine filter snd]. now destruct b. Qed.

Lemma where_from_spec (m : list bool) (k : nat) (i : Z) :
  In i (map fst (filter snd (combine (map Z.of_nat (seq k (length m))) m))) <->
  exists j, i = Z.of_nat (k + j) /\ nth_error m j = Some true.
Proof.
  revert k. induction m as [| b m IH]; intros k.
  - cbn. split; [intros [] | intros [j [_ H]]; now destruct j].
  - rewrite where_from_cons, in_app_iff, IH. split.
    + intros [H | [j [Hi Hj]]].
      * destruct b; [| contradiction]. destruct H as [H | []].
        exists 0%nat. split; [rewrite Nat.add_0_r; now symmetry | reflexivity].
      * exists (S j). split; [rewrite Hi; f_equal; lia | exact Hj].
    + intros [[| j] [Hi Hj]].
      * left. cbn in Hj. injection Hj as ->. left. rewrite Hi. f_equal. lia.
      * right. exists j. split; [rewrite Hi; f_equal; lia | exact Hj].
Qed.

Lemma where_from_sorted (m : list bool) (k : nat) :
  StronglySorted Z.lt (map fst (filter snd (combine (map Z.of_nat (seq k (length m))) m))).
Proof.
  revert k. induction m as [| b m IH]; intros k.
  - cbn. constructor.
  - rewrite where_from_cons. destruct b; cbn [app]; [| apply IH].
    constructor; [apply IH |]. apply Forall_forall. intros i Hi.
    apply where_from_spec in Hi. destruct Hi as [j [-> _]]. lia.
Qed.

Lemma where_spec (m : list bool) (i : Z) :
  In i (Np.where_ m) <-> (0 <= i < zlen m /\ nth (Z.to_nat i) m false = true).
Proof.
  unfold Np.where_, enumerate. rewrite where_from_spec. split.
  - intros [j [-> Hj]]. cbn [Nat.add]. rewrite Nat2Z.id.
    assert (j < length m)%nat by (apply nth_error_Some; congruence).
    split; [unfold zlen; lia |]. now apply nth_error_nth.
  - intros [[Hlo Hhi] Hnth]. exists (Z.to_nat i). split; [cbn [Nat.add]; lia |].
    unfold zlen in Hhi.
    rewrite (nth_error_nth' m false) by lia. now rewrite Hnth.
Qed.

Lemma where_sorted (m : list bool) : StronglySorted Z.lt (Np.where_ m).
Proof. apply where_from_sorted. Qed.

Lemma where_in_range (m : list bool) : Forall (fun i => 0 <= i < zlen m) (Np.where_ m).
Proof. apply Forall_forall. intros i Hi. now apply where_spec in Hi. Qed.

(** ** Maximum and [argmax] *)

Lemma maxl_fold_spec (t : list Q) (x : Q) :
  let m := fold_left (fun m y => if Qltb m y then y else m) t x in
  (m = x \/ In m t) /\ (x <= m)%Q /\ (forall y, In y t -> (y <= m)%Q).
Proof.
  revert x. induction t as [| y t IH]; intros x; cbn [fold_left].
  - split; [now left |]. split; [lra | intros y []].
  - destruct (Qltb x y) eqn:E.
    + apply Qltb_lt in E. destruct (IH y) as (Hin & Hle & Hall).
      split; [right; destruct Hin as [-> | Hin]; [now left | now right] |].
      split; [lra |]. intros z [<- | Hz]; [exact Hle | now apply Hall].
    + apply Qltb_ge in E. destruct (IH x) as (Hin & Hle & Hall).
      split; [destruct Hin as [-> | Hin]; [now left | right; now right] |].
      split; [exact Hle |]. intros z [<- | Hz]; [lra | now apply Hall].
Qed.

Lemma maxl_spec (l : list Q) :
  l <> [] -> In (Np.maxl l) l /\ (forall y, In y l -> (y <= Np.maxl l)%Q).
Proof.
  destruct l as [| x t]; [congruence |]. intros _. unfold Np.maxl.
  destruct (maxl_fold_spec t x) as (Hin & Hle & Hall). split.
  - destruct Hin as [-> | Hin]; [now left | now right].
  - intros y [<- | Hy]; [exact Hle | now apply Hall].
Qed.

Lemma argmax_from_spec (t pre : list Q) (best : Q) (besti : Z) :
  0 <= besti < zlen pre ->
  nth (Z.to_nat besti) (pre ++ t) 0%Q = best ->
  (forall y, In y pre -> (y <= best)%Q) ->
  let r := Np.argmax_from best besti (zlen pre) t in
  0 <= r < zlen (pre ++ t) /\
  (forall y, In y (pre ++ t) -> (y <= nth (Z.to_nat r) (pre ++ t) 0)%Q).
Proof.
  revert pre best besti. induction t as [| x t IH]; intros pre best besti Hi Hb Hall.
  - cbn [Np.argmax_from]. rewrite app_nil_r in *. split; [exact Hi |].
    intros y Hy. rewrite Hb. now apply Hall.
  - cbn [Np.argmax_from].
    assert (pre ++ x :: t = (pre ++ [x]) ++ t) as Happ by now rewrite <- app_assoc.
    assert (zlen pre + 1 = zlen (pre ++ [x])) as Hlen
        by (rewrite zlen_app; unfold zlen; simpl; lia).
    rewrite Happ, Hlen.
    destruct (Qltb best x) eqn:E.
    + apply Qltb_lt in E. apply IH.
      * rewrite <- Hlen. pose proof (zlen_nonneg pre). lia.
      * rewrite <- Happ. unfold zlen. rewrite Nat2Z.id.
        rewrite app_nth2 by lia. now rewrite Nat.sub_diag.
      * intros y Hy. apply in_app_or in Hy. destruct Hy as [Hy | [<- | []]]; [| lra].
        apply Hall in Hy. lra.
    + apply Qltb_ge in E. apply IH.
      * rewrite <- Hlen. lia.
      * now rewrite <- Happ.
      * intros y Hy. apply in_app_or in Hy. destruct Hy as [Hy | [<- | []]]; [| exact E].
        now apply Hall.
Qed.

Lemma argmax_spec (l : list Q) :
  l <> [] ->
  0 <= Np.argmax l < zlen l /\
  (forall y, In y l -> (y <= znth l (Np.argmax l) 0)%Q).
Proof.
  destruct l as [| x t]; [congruence |]. intros _. unfold Np.argmax, znth.
  apply (argmax_from_spec t [x] x 0).
  - unfold zlen. simpl. lia.
  - reflexivity.
  - intros y [<- | []]. lra.
Qed.

Lemma length_avg_distances (sqrtf : Q -> Q) (colors : list color) :
  length (avg_distances_of sqrtf colors) = length colors.
Proof.
  unfold avg_distances_of. rewrite length_map, length_range. unfold zlen. lia.
Qed.

Lemma length_distances_to_median (sqrtf : Q -> Q) (colors : list color) :
  length (distances_to_median_of sqrtf colors) = length colors.
Proof. unfold distances_to_median_of. now rewrite length_map. Qed.

(** ** The isolation gate *)

(** C4: for at least two colours and a positive sensitivity, when the largest
    mean distance of a cell to the other cells is below [10 / sensitivity],
    [_find_different] returns the empty list; that largest value is the
    maximum of the mean distances. *)
Theorem find_different_isolation_gate (sqrtf : Q -> Q) (cell_colors : list color)
        (sensitivity : Q) :
  2 <= zlen cell_colors ->
  (0 < sensitivity)%Q ->
  (Np.maxl (avg_distances_of sqrtf cell_colors) < 10 / sensitivity)%Q ->
  In (Np.maxl (avg_distances_of sqrtf cell_colors)) (avg_distances_of sqrtf cell_colors) /\
  (forall a, In a (avg_distances_of sqrtf cell_colors) ->
             (a <= Np.maxl (avg_distances_of sqrtf cell_colors))%Q) /\
  _find_different sqrtf cell_colors sensitivity = [].
Proof.
  intros Hn _ Hmax.
  assert (avg_distances_of sqrtf cell_colors <> []) as Hne.
  { intros H. apply (f_equal (@length Q)) in H. rewrite length_avg_distances in H.
    unfold zlen in Hn. simpl in H. lia. }
  destruct (maxl_spec _ Hne) as [Hin Hall].
  split; [exact Hin |]. split; [exact Hall |].
  unfold _find_different.
  assert ((zlen cell_colors <? 2) = false) as -> by (apply Z.ltb_ge; lia).
  apply Qltb_lt in Hmax. cbv zeta. now rewrite Hmax.
Qed.

Lemma find_different_isolation_gate_witness :
  In (Np.maxl (avg_distances_of sqrt_fix [(10, 10, 10); (12, 10, 10)]%Q))
     (avg_distances_of sqrt_fix [(10, 10, 10); (12, 10, 10)]%Q) /\
  (forall a, In a (avg_distances_of sqrt_fix [(10, 10, 10); (12, 10, 10)]%Q) ->
             (a <= Np.maxl (avg_distances_of sqrt_fix [(10, 10, 10); (12, 10, 10)]%Q))%Q) /\
  _find_different sqrt_fix [(10, 10, 10); (12, 10, 10)]%Q 1 = [].
Proof.
  apply (find_different_isolation_gate sqrt_fix [(10, 10, 10); (12, 10, 10)]%Q 1%Q).
  - vm_compute. discriminate.
  - reflexivity.
  - vm_compute. reflexivity.
Defined.

(** ** The two-cluster fallback and the last resort *)

(** C5: when the classifier reaches the two-cluster fallback, passes its
    distance gate and both final clusters are non-empty, it returns the
    strictly smaller cluster; with clusters of equal size it returns neither
    and falls through to the last resort, which returns the single index of
    the largest distance to the median colour when that distance exceeds
    [10 / sensitivity], and the empty list otherwise. *)
Theorem cluster_fallback_smaller_cluster_or_last_resort
        (sqrtf : Q -> Q) (cell_colors : list color) (sensitivity : Q)
        (cluster1 cluster2 : list Z) :
  2 <= zlen cell_colors ->
  Qltb (Np.maxl (avg_distances_of sqrtf cell_colors)) (10 / sensitivity) = false ->
  strategy_zscore sqrtf (avg_distances_of sqrtf cell_colors) = None ->
  strategy_mad (distances_to_median_of sqrtf cell_colors) = None ->
  Qltb (fst (fst (furthest_pair sqrtf cell_colors))) (10 / sensitivity) = false ->
  final_clusters sqrtf cell_colors = (cluster1, cluster2) ->
  0 < zlen cluster1 -> 0 < zlen cluster2 ->
  let distances_to_median := distances_to_median_of sqrtf cell_colors in
  let max_idx := Np.argmax distances_to_median in
  (zlen cluster1 < zlen cluster2 ->
   _find_different sqrtf cell_colors sensitivity = cluster1) /\
  (zlen cluster2 < zlen cluster1 ->
   _find_different sqrtf cell_colors sensitivity = cluster2) /\
  (zlen cluster1 = zlen cluster2 ->
   0 <= max_idx < zlen cell_colors /\
   (forall d, In d distances_to_median -> (d <= znth distances_to_median max_idx 0)%Q) /\
   ((10 / sensitivity < znth distances_to_median max_idx 0)%Q ->
    _find_different sqrtf cell_colors sensitivity = [max_idx]) /\
   ((znth distances_to_median max_idx 0 <= 10 / sensitivity)%Q ->
    _find_different sqrtf cell_colors sensitivity = [])).
Proof.
  intros Hn Hgate Hz Hmad Hpair Hfin H1 H2 dtm max_idx.
  assert (_find_different sqrtf cell_colors sensitivity =
          match strategy_cluster sqrtf cell_colors (10 / sensitivity) with
          | Some cluster => cluster
          | None => last_resort dtm (10 / sensitivity)
          end) as Hfd.
  { unfold _find_different.
    assert ((zlen cell_colors <? 2) = false) as -> by (apply Z.ltb_ge; lia).
    cbv zeta. rewrite Hgate, Hz, Hmad. reflexivity. }
  assert (strategy_cluster sqrtf cell_colors (10 / sensitivity) =
          if zlen cluster1 <? zlen cluster2 then Some cluster1
          else if zlen cluster2 <? zlen cluster1 then Some cluster2
          else None) as Hsc.
  { unfold strategy_cluster. rewrite Hfin.
    destruct (furthest_pair sqrtf cell_colors) as [[d i] j]. cbn [fst] in Hpair.
    rewrite Hpair.
    assert ((0 <? zlen cluster1) = true) as -> by (apply Z.ltb_lt; lia).
    assert ((0 <? zlen cluster2) = true) as -> by (apply Z.ltb_lt; lia).
    reflexivity. }
  rewrite Hfd, Hsc. split; [| split].
  - intros Hlt. apply Z.ltb_lt in Hlt. now rewrite Hlt.
  - intros Hlt. assert ((zlen cluster1 <? zlen cluster2) = false) as ->
        by (apply Z.ltb_ge; lia).
    apply Z.ltb_lt in Hlt. now rewrite Hlt.
  - intros Heq.
    assert ((zlen cluster1 <? zlen cluster2) = false) as -> by (apply Z.ltb_ge; lia).
    assert ((zlen cluster2 <? zlen cluster1) = false) as -> by (apply Z.ltb_ge; lia).
    assert (dtm <> []) as Hne.
    { intros H. apply (f_equal (@length Q)) in H. unfold dtm in H.
      rewrite length_distances_to_median in H. unfold zlen in Hn. simpl in H. lia. }
    destruct (argmax_spec dtm Hne) as [Hrange Hmax]. fold max_idx in Hrange, Hmax.
    split.
    { unfold dtm, zlen in Hrange. rewrite length_distances_to_median in Hrange.
      exact Hrange. }
    split; [exact Hmax |]. unfold last_resort. fold max_idx. split.
    + intros Hgt. apply Qgtb_gt in Hgt. now rewrite Hgt.
    + intros Hle. apply Qgtb_le in Hle. now rewrite Hle.
Qed.

Lemma cluster_fallback_smaller_cluster_or_last_resort_witness :
  let cell_colors := [(0, 0, 0); (0, 0, 0); (100, 0, 0)]%Q in
  let distances_to_median := distances_to_median_of sqrt_fix cell_colors in
  let max_idx := Np.argmax distances_to_median in
  (zlen [0; 1] < zlen [2] -> _find_different sqrt_fix cell_colors 1 = [0; 1]) /\
  (zlen [2] < zlen [0; 1] -> _find_different sqrt_fix cell_colors 1 = [2]) /\
  (zlen [0; 1] = zlen [2] ->
   0 <= max_idx < zlen cell_colors /\
   (forall d, In d distances_to_median -> (d <= znth distances_to_median max_idx 0)%Q) /\
   ((10 / 1 < znth distances_to_median max_idx 0)%Q ->
    _find_different sqrt_fix cell_colors 1 = [max_idx]) /\
   ((znth distances_to_median max_idx 0 <= 10 / 1)%Q ->
    _find_different sqrt_fix cell_colors 1 = [])).
Proof.
  apply (cluster_fallback_smaller_cluster_or_last_resort
           sqrt_fix [(0, 0, 0); (0, 0, 0); (100, 0, 0)]%Q 1%Q [0; 1] [2]);
    vm_compute; solve [reflexivity | discriminate].
Defined.

(** ** The colour sampler *)

Lemma py_int_fifth (w : Z) : py_int (inject_Z w * (2 # 10)) = Z.quot w 5.
Proof.
  unfold py_int. cbn [Qmult inject_Z Qnum Qden]. rewrite Pos.mul_1_l.
  change (Z.pos 10) with (5 * 2). apply Z.quot_mul_cancel_r; lia.
Qed.

Lemma even_halves (s : Z) : Z.even s = true -> 2 * (s / 2) = s.
Proof.
  intros H. apply Z.even_spec in H. destruct H as [k ->].
  rewrite (Z.mul_comm 2 k), Z.div_mul by lia. lia.
Qed.

(** C7, as the code has it: the margins are [0.2 * w] and [0.2 * h]
    truncated to integers; the sampling window is centred on the centre
    [(x + w // 2, y + h // 2)] of the cell, it is [sample_w] wide and
    [sample_h] high before clamping whenever these sizes
    [max(5, w - 2*mx)] and [max(5, h - 2*my)] are even, it is clamped to the
    image, and when the clamped window holds no pixel the sampler returns the
    grey [(128, 128, 128)]; otherwise it returns the mean of the window. *)
Theorem sampler_window_and_gray_fallback (img : image) (x y w h : Z) :
  let mx := Z.quot w 5 in
  let my := Z.quot h 5 in
  let sample_w := Z.max 5 (w - 2 * mx) in
  let sample_h := Z.max 5 (h - 2 * my) in
  py_int (inject_Z w * (2 # 10)) = mx /\
  py_int (inject_Z h * (2 # 10)) = my /\
  exists y_lo y_hi x_lo x_hi,
    sample_window (x, y, w, h) = (y_lo, y_hi, x_lo, x_hi) /\
    x_lo + x_hi = 2 * (x + w / 2) /\
    y_lo + y_hi = 2 * (y + h / 2) /\
    (Z.even sample_w = true -> x_hi - x_lo = sample_w) /\
    (Z.even sample_h = true -> y_hi - y_lo = sample_h) /\
    sample_region img (x, y, w, h) =
      Np.slice2 (Z.max 0 y_lo) (Z.min (shape0 img) y_hi)
                (Z.max 0 x_lo) (Z.min (shape1 img) x_hi) img /\
    (0 < region_size (sample_region img (x, y, w, h)) ->
     sample_color img (x, y, w, h) = mean_color (sample_region img (x, y, w, h))) /\
    (region_size (sample_region img (x, y, w, h)) <= 0 ->
     sample_color img (x, y, w, h) = gray128).
Proof.
  intros mx my sample_w sample_h.
  split; [apply py_int_fifth |]. split; [apply py_int_fifth |].
  exists (y + h / 2 - sample_h / 2), (y + h / 2 + sample_h / 2),
         (x + w / 2 - sample_w / 2), (x + w / 2 + sample_w / 2).
  split; [unfold sample_window; now rewrite !py_int_fifth |].
  split; [lia |]. split; [lia |].
  split; [intros He; apply even_halves in He; lia |].
  split; [intros He; apply even_halves in He; lia |].
  split; [unfold sample_region, sample_window; now rewrite !py_int_fifth |].
  unfold sample_color. split.
  - intros Hpos. apply Z.ltb_lt in Hpos. now rewrite Hpos.
  - intros Hle. apply Z.ltb_ge in Hle. now rewrite Hle.
Qed.

(** The claim C7 as written fails: for an 8x8 cell the untruncated margin
    [0.2 * 8 = 1.6] gives the size [max(5, 4.8) = 5], while the code truncates
    the margin to 1 and samples a 6x6 window. *)
Lemma sampler_window_size_counterexample :
  ~ (forall x y w h : Z,
        let '(y_lo, y_hi, x_lo, x_hi) := sample_window (x, y, w, h) in
        (inject_Z (x_hi - x_lo) == claimed_sample_size w)%Q /\
        (inject_Z (y_hi - y_lo) == claimed_sample_size h)%Q).
Proof.
  intros H. specialize (H 0 0 8 8). vm_compute in H. destruct H as [H _]. discriminate.
Qed.

Example sampler_window_8 : sample_window (0, 0, 8, 8) = (1, 7, 1, 7).
Proof. reflexivity. Qed.

Example sampler_window_5 : sample_window (0, 0, 5, 5) = (0, 4, 0, 4).
Proof. reflexivity. Qed.

(** ** The clusters of the two-means loop *)

Lemma Qgtb_negb_Qleb (a b : Q) : Qgtb a b = negb (Qleb a b).
Proof. unfold Qgtb, Qltb, Qleb, Qle_bool. apply Z.ltb_antisym. Qed.

Lemma kmeans_masks (sqrtf : Q -> Q) (colors : list color) (center1 center2 : color) :
  let d := combine (map (fun c => dist sqrtf c center1) colors)
                   (map (fun c => dist sqrtf c center2) colors) in
  complementary (length colors)
    (Np.where_ (map (fun d => Qleb (fst d) (snd d)) d))
    (Np.where_ (map (fun d => Qgtb (fst d) (snd d)) d)).
Proof.
  intros d. exists (map (fun d => Qleb (fst d) (snd d)) d). split; [| split].
  - unfold d. rewrite length_map, length_combine, !length_map. apply Nat.min_id.
  - reflexivity.
  - rewrite map_map. f_equal. apply map_ext. intros [a b]. apply Qgtb_negb_Qleb.
Qed.

Lemma kmeans_complementary (sqrtf : Q -> Q) (colors : list color) (k : nat) :
  forall center1 center2 last_clusters,
    complementary (length colors)
      (fst (kmeans sqrtf (S k) colors center1 center2 last_clusters))
      (snd (kmeans sqrtf (S k) colors center1 center2 last_clusters)).
Proof.
  induction k as [| k IH]; intros center1 center2 last_clusters.
  - cbn [kmeans]. cbv zeta.
    repeat match goal with |- context [if ?c then _ else _] => destruct c end;
      cbn [fst snd]; apply kmeans_masks.
  - remember (S k) as k' eqn:Hk. cbn [kmeans]. cbv zeta.
    repeat match goal with |- context [if ?c then _ else _] => destruct c end;
      cbn [fst snd]; try apply kmeans_masks.
    subst k'. apply IH.
Qed.

Lemma final_clusters_complementary (sqrtf : Q -> Q) (colors : list color) :
  complementary (length colors)
    (fst (final_clusters sqrtf colors)) (snd (final_clusters sqrtf colors)).
Proof.
  unfold final_clusters. destruct (furthest_pair sqrtf colors) as [[d i] j].
  apply kmeans_complementary.
Qed.

Lemma where_ascending_below (m : list bool) : ascending_below (zlen m) (Np.where_ m).
Proof. split; [apply where_sorted | apply where_in_range]. Qed.

Lemma ascending_below_nil (n : Z) : ascending_below n [].
Proof. split; constructor. Qed.

(** ** Every strategy returns ascending indices within range *)

Lemma strategy_zscore_ascending (sqrtf : Q -> Q) (avg : list Q) (l : list Z) :
  strategy_zscore sqrtf avg = Some l -> ascending_below (zlen avg) l.
Proof.
  unfold strategy_zscore. cbv zeta.
  destruct (Qgtb (std sqrtf avg) (1 # 10)); [| discriminate].
  match goal with |- context [if ?c then _ else _] => destruct c end; [| discriminate].
  intros H. injection H as <-.
  match goal with |- ascending_below _ (Np.where_ ?m) =>
    replace (zlen avg) with (zlen m); [apply where_ascending_below |] end.
  now rewrite !zlen_map.
Qed.

Lemma strategy_mad_ascending (dtm : list Q) (l : list Z) :
  strategy_mad dtm = Some l -> ascending_below (zlen dtm) l.
Proof.
  unfold strategy_mad. cbv zeta.
  match goal with |- context [if ?c then _ else _] => destruct c end; [| discriminate].
  match goal with |- context [if ?c then _ else _] => destruct c end; [| discriminate].
  intros H. injection H as <-.
  match goal with |- ascending_below _ (Np.where_ ?m) =>
    replace (zlen dtm) with (zlen m); [apply where_ascending_below |] end.
  now rewrite !zlen_map.
Qed.

Lemma complementary_ascending (n : nat) (a b : list Z) :
  complementary n a b -> ascending_below (Z.of_nat n) a /\ ascending_below (Z.of_nat n) b.
Proof.
  intros [m [Hlen [-> ->]]]. split.
  - replace (Z.of_nat n) with (zlen m) by (unfold zlen; now rewrite Hlen).
    apply where_ascending_below.
  - replace (Z.of_nat n) with (zlen (map negb m))
      by (unfold zlen; now rewrite length_map, Hlen).
    apply where_ascending_below.
Qed.

Lemma strategy_cluster_cases (sqrtf : Q -> Q) (colors : list color) (t : Q) (l : list Z) :
  strategy_cluster sqrtf colors t = Some l ->
  l = [] \/
  (l = fst (final_clusters sqrtf colors) /\
   0 < zlen (snd (final_clusters sqrtf colors)) /\
   zlen (fst (final_clusters sqrtf colors)) < zlen (snd (final_clusters sqrtf colors))) \/
  (l = snd (final_clusters sqrtf colors) /\
   0 < zlen (fst (final_clusters sqrtf colors)) /\
   zlen (snd (final_clusters sqrtf colors)) < zlen (fst (final_clusters sqrtf colors))).
Proof.
  unfold strategy_cluster.
  destruct (furthest_pair sqrtf colors) as [[d i] j].
  destruct (Qltb d t); [intros H; injection H as <-; now left |].
  destruct (final_clusters sqrtf colors) as [c1 c2]. cbn [fst snd].
  destruct (0 <? zlen c1) eqn:E1; [| discriminate].
  destruct (0 <? zlen c2) eqn:E2; [| discriminate]. cbn [andb].
  apply Z.ltb_lt in E1, E2.
  destruct (zlen c1 <? zlen c2) eqn:E3.
  - apply Z.ltb_lt in E3. intros H. injection H as <-. right. left. auto.
  - destruct (zlen c2 <? zlen c1) eqn:E4; [| discriminate].
    apply Z.ltb_lt in E4. intros H. injection H as <-. right. right. auto.
Qed.

Lemma find_different_ascending (sqrtf : Q -> Q) (cell_colors : list color) (sensitivity : Q) :
  ascending_below (zlen cell_colors) (_find_different sqrtf cell_colors sensitivity).
Proof.
  unfold _find_different.
  destruct (zlen cell_colors <? 2) eqn:En; [apply ascending_below_nil |].
  apply Z.ltb_ge in En. cbv zeta.
  match goal with |- context [if ?c then _ else _] => destruct c end;
    [apply ascending_below_nil |].
  destruct (strategy_zscore sqrtf (avg_distances_of sqrtf cell_colors)) as [l |] eqn:Ez.
  { apply strategy_zscore_ascending in Ez. unfold zlen in Ez.
    rewrite length_avg_distances in Ez. exact Ez. }
  destruct (strategy_mad (distances_to_median_of sqrtf cell_colors)) as [l |] eqn:Em.
  { apply strategy_mad_ascending in Em. unfold zlen in Em.
    rewrite length_distances_to_median in Em. exact Em. }
  destruct (strategy_cluster sqrtf cell_colors (10 / sensitivity)) as [l |] eqn:Ec.
  { destruct (complementary_ascending _ _ _ (final_clusters_complementary sqrtf cell_colors))
      as [H1 H2].
    apply strategy_cluster_cases in Ec.
    destruct Ec as [-> | [[-> _] | [-> _]]]; [apply ascending_below_nil | exact H1 | exact H2]. }
  unfold last_resort.
  match goal with |- context [if ?c then _ else _] => destruct c end;
    [| apply ascending_below_nil].
  assert (distances_to_median_of sqrtf cell_colors <> []) as Hne.
  { intros H. apply (f_equal (@length Q)) in H.
    rewrite length_distances_to_median in H. unfold zlen in En. simpl in H. lia. }
  destruct (argmax_spec _ Hne) as [Hrange _].
  unfold zlen in Hrange. rewrite length_distances_to_median in Hrange.
  split; [repeat constructor | constructor; [exact Hrange | constructor]].
Qed.

(** ** Row-major order of the reported cells *)

Lemma entry_of_mono (cols : Z) (cc : list color) (i j : Z) :
  0 < cols -> 0 <= i -> i < j -> entry_lt (entry_of cols cc i) (entry_of cols cc j).
Proof.
  intros Hc Hi Hij. unfold entry_lt, entry_of. cbn [row col].
  pose proof (Z.div_mod i cols ltac:(lia)) as Hdi.
  pose proof (Z.div_mod j cols ltac:(lia)) as Hdj.
  pose proof (Z.mod_pos_bound i cols Hc) as Hmi.
  pose proof (Z.mod_pos_bound j cols Hc) as Hmj.
  assert (i / cols <= j / cols) as Hle by (apply Z.div_le_mono; lia).
  destruct (Z.eq_dec (i / cols) (j / cols)) as [Heq | Hne]; [right | left; lia].
  split; [lia |]. rewrite Heq in Hdi. lia.
Qed.

Lemma index_to_cell_injective (cols i j : Z) :
  cols <> 0 ->
  (i / cols + 1, i mod cols + 1) = (j / cols + 1, j mod cols + 1) -> i = j.
Proof.
  intros Hc H. injection H as Hd Hm.
  rewrite (Z.div_mod i cols Hc), (Z.div_mod j cols Hc).
  assert (i / cols = j / cols) as -> by lia.
  assert (i mod cols = j mod cols) as -> by lia. reflexivity.
Qed.

Lemma entries_sorted (cols : Z) (cc : list color) (l : list Z) :
  0 < cols -> StronglySorted Z.lt l -> Forall (fun i => 0 <= i) l ->
  StronglySorted entry_lt (map (entry_of cols cc) l).
Proof.
  intros Hc Hs. induction Hs as [| i l Hs IH Hall]; intros Hpos; cbn [map]; [constructor |].
  inversion Hpos as [| ? ? Hi Hpos']; subst.
  constructor; [now apply IH |].
  apply Forall_forall. intros e He. apply in_map_iff in He. destruct He as [j [<- Hj]].
  rewrite Forall_forall in Hall. apply entry_of_mono; auto.
Qed.

Lemma entries_nodup (l : list entry) :
  StronglySorted entry_lt l -> NoDup (map (fun e => (row e, col e)) l).
Proof.
  induction 1 as [| e l Hs IH Hall]; cbn [map]; constructor; [| exact IH].
  intros Hin. apply in_map_iff in Hin. destruct Hin as [e' [Heq He']].
  rewrite Forall_forall in Hall. specialize (Hall e' He').
  injection Heq as Hr Hc. unfold entry_lt in Hall. lia.
Qed.

Lemma range_sorted_from (k n : nat) : StronglySorted Z.lt (map Z.of_nat (seq k n)).
Proof.
  revert k. induction n as [| n IH]; intros k; cbn [seq map]; constructor; [apply IH |].
  apply Forall_forall. intros i Hi. apply in_map_iff in Hi. destruct Hi as [j [<- Hj]].
  apply in_seq in Hj. lia.
Qed.

Lemma range_nonneg (n : Z) : Forall (fun i => 0 <= i) (range n).
Proof.
  apply Forall_forall. intros i Hi. unfold range in Hi. apply in_map_iff in Hi.
  destruct Hi as [j [<- _]]. lia.
Qed.

Lemma map_fst_combine_eq {A B : Type} (a : list A) (b : list B) :
  length a = length b -> map fst (combine a b) = a.
Proof.
  revert b. induction a as [| x a IH]; intros [| y b] H; simpl in *; try congruence.
  f_equal. apply IH. congruence.
Qed.

Lemma map_fst_enumerate {A : Type} (l : list A) : map fst (enumerate l) = range (zlen l).
Proof.
  unfold enumerate, range, zlen. rewrite Nat2Z.id.
  apply map_fst_combine_eq. now rewrite length_map, length_seq.
Qed.

(** C8: on a successful analysis the outliers are reported in row-major
    order (row ascending, then column ascending), every outlier index lies in
    [0, rows * cols), the map from an index to its [(row, col)] is injective
    on the reported indices, no cell is reported twice, and in debug mode the
    entries of all the cells are in row-major order as well. *)
Theorem analyze_outliers_row_major (sqrtf : Q -> Q) (img : image) (sensitivity : Q)
        (debug : bool) (a : analysis) :
  analyze sqrtf img sensitivity debug = Some a ->
  exists rows cols cells,
    _detect_grid_simple sqrtf img = Some (rows, cols, cells) /\
    let cell_colors := map (sample_color img) cells in
    let different_cells := _find_different sqrtf cell_colors sensitivity in
    results a = map (entry_of cols cell_colors) different_cells /\
    StronglySorted Z.lt different_cells /\
    Forall (fun idx => 0 <= idx < rows * cols) different_cells /\
    StronglySorted entry_lt (results a) /\
    (forall i j, In i different_cells -> In j different_cells ->
                 (i / cols + 1, i mod cols + 1) = (j / cols + 1, j mod cols + 1) -> i = j) /\
    NoDup (map (fun e => (row e, col e)) (results a)) /\
    (debug = true ->
     exists all_colors,
       debug_colors a = Some all_colors /\
       all_colors = map (entry_of cols cell_colors) (range (rows * cols)) /\
       StronglySorted entry_lt all_colors).
Proof.
  unfold analyze.
  destruct (_detect_grid_simple sqrtf img) as [[[rows cols] cells] |] eqn:E; [| discriminate].
  intros H. injection H as <-. exists rows, cols, cells.
  destruct (detect_grid_shape _ _ _ _ _ E) as (Hr & Hc & Hlen).
  split; [reflexivity |]. cbv zeta. cbn [results debug_colors].
  set (cell_colors := map (sample_color img) cells).
  set (different_cells := _find_different sqrtf cell_colors sensitivity).
  destruct (find_different_ascending sqrtf cell_colors sensitivity) as [Hs Hrange].
  fold different_cells in Hs, Hrange.
  assert (zlen cell_colors = rows * cols) as Hcc
      by (unfold cell_colors; now rewrite zlen_map).
  rewrite Hcc in Hrange.
  assert (StronglySorted entry_lt (map (entry_of cols cell_colors) different_cells)) as Hes.
  { apply entries_sorted; [lia | exact Hs |].
    eapply Forall_impl; [| exact Hrange]. cbv beta. intros; lia. }
  split; [reflexivity |]. split; [exact Hs |]. split; [exact Hrange |].
  split; [exact Hes |].
  split; [intros i j _ _; apply index_to_cell_injective; lia |].
  split; [now apply entries_nodup |].
  intros ->. eexists. split; [reflexivity |].
  assert (map (fun ic : Z * color => entry_of cols cell_colors (fst ic)) (enumerate cell_colors)
          = map (entry_of cols cell_colors) (range (rows * cols))) as ->.
  { rewrite <- Hcc, <- map_fst_enumerate, map_map. reflexivity. }
  split; [reflexivity |].
  apply entries_sorted; [lia | apply range_sorted_from | apply range_nonneg].
Qed.

Lemma analyze_outliers_row_major_witness :
  analyze sqrt_fix grid3 (15 # 10) true = Some grid3_analysis /\
  exists rows cols cells,
    _detect_grid_simple sqrt_fix grid3 = Some (rows, cols, cells) /\
    let cell_colors := map (sample_color grid3) cells in
    let different_cells := _find_different sqrt_fix cell_colors (15 # 10) in
    results grid3_analysis = map (entry_of cols cell_colors) different_cells /\
    StronglySorted Z.lt different_cells /\
    Forall (fun idx => 0 <= idx < rows * cols) different_cells /\
    StronglySorted entry_lt (results grid3_analysis) /\
    (forall i j, In i different_cells -> In j different_cells ->
                 (i / cols + 1, i mod cols + 1) = (j / cols + 1, j mod cols + 1) -> i = j) /\
    NoDup (map (fun e => (row e, col e)) (results grid3_analysis)) /\
    (true = true ->
     exists all_colors,
       debug_colors grid3_analysis = Some all_colors /\
       all_colors = map (entry_of cols cell_colors) (range (rows * cols)) /\
       StronglySorted entry_lt all_colors).
Proof.
  assert (analyze sqrt_fix grid3 (15 # 10) true = Some grid3_analysis) as H
      by (vm_compute; reflexivity).
  split; [exact H |].
  exact (analyze_outliers_row_major sqrt_fix grid3 (15 # 10) true grid3_analysis H).
Defined.

(** ** Means, minima and medians *)

Lemma inject_zlen_cons {A : Type} (x : A) (t : list A) :
  (inject_Z (zlen (x :: t)) == 1 + inject_Z (zlen t))%Q.
Proof.
  unfold zlen. cbn [length]. rewrite Nat2Z.inj_succ. unfold Z.succ.
  rewrite inject_Z_plus. ring.
Qed.

Lemma sum_ge (m : Q) (l : list Q) :
  (forall x, In x l -> (m < x)%Q) -> (inject_Z (zlen l) * m <= Np.sum l)%Q.
Proof.
  induction l as [| x t IH]; intros H.
  - unfold zlen, Np.sum. cbn [length fold_right Z.of_nat].
    change (inject_Z 0) with 0%Q. lra.
  - rewrite inject_zlen_cons. cbn [Np.sum fold_right].
    assert (m < x)%Q by (apply H; now left).
    assert (inject_Z (zlen t) * m <= Np.sum t)%Q by (apply IH; intros y Hy; apply H; now right).
    fold (Np.sum t). lra.
Qed.

Lemma sum_gt (m : Q) (l : list Q) :
  l <> [] -> (forall x, In x l -> (m < x)%Q) -> (inject_Z (zlen l) * m < Np.sum l)%Q.
Proof.
  destruct l as [| x t]; [congruence |]. intros _ H.
  rewrite inject_zlen_cons. cbn [Np.sum fold_right]. fold (Np.sum t).
  assert (m < x)%Q by (apply H; now left).
  assert (inject_Z (zlen t) * m <= Np.sum t)%Q by (apply sum_ge; intros y Hy; apply H; now right).
  lra.
Qed.

Lemma exists_le_or_all_gt (m : Q) (l : list Q) :
  (exists j, (j < length l)%nat /\ (nth j l 0 <= m)%Q) \/ (forall x, In x l -> (m < x)%Q).
Proof.
  induction l as [| x t IH].
  - right. intros x [].
  - destruct (Qlt_le_dec m x) as [Hlt | Hle].
    + destruct IH as [[j [Hj Hn]] | Hall].
      * left. exists (S j). split; [simpl; lia | exact Hn].
      * right. intros y [<- | Hy]; [exact Hlt | now apply Hall].
    + left. exists 0%nat. split; [simpl; lia | exact Hle].
Qed.

Lemma mean_times_length (l : list Q) :
  l <> [] -> (inject_Z (zlen l) * Np.mean l == Np.sum l)%Q.
Proof.
  intros Hne. unfold Np.mean. field.
  destruct l as [| x t]; [congruence |].
  rewrite inject_zlen_cons. pose proof (zlen_nonneg t) as Hp.
  assert (0 <= inject_Z (zlen t))%Q by (change 0%Q with (inject_Z 0); now rewrite <- Zle_Qle).
  lra.
Qed.

Lemma exists_index_le_mean (l : list Q) :
  l <> [] -> exists j, (j < length l)%nat /\ (nth j l 0 <= Np.mean l)%Q.
Proof.
  intros Hne. destruct (exists_le_or_all_gt (Np.mean l) l) as [H | Hall]; [exact H |].
  exfalso. pose proof (sum_gt _ _ Hne Hall) as Hgt.
  rewrite (mean_times_length l Hne) in Hgt. now apply Qlt_irrefl in Hgt.
Qed.

Lemma exists_min_index (l : list Q) :
  l <> [] -> exists j, (j < length l)%nat /\ forall y, In y l -> (nth j l 0 <= y)%Q.
Proof.
  induction l as [| x t IH]; [congruence |]. intros _.
  destruct t as [| x' t'].
  - exists 0%nat. split; [simpl; lia |]. intros y [<- | []]. cbn [nth]. lra.
  - destruct (IH ltac:(discriminate)) as [j [Hj Hmin]].
    destruct (Qlt_le_dec (nth j (x' :: t') 0%Q) x) as [Hlt | Hle].
    + exists (S j). split; [simpl in *; lia |].
      change (nth (S j) (x :: x' :: t') 0%Q) with (nth j (x' :: t') 0%Q).
      intros y [<- | Hy]; [lra | now apply Hmin].
    + exists 0%nat. split; [simpl; lia |].
      change (nth 0 (x :: x' :: t') 0%Q) with x.
      intros y [<- | Hy]; [lra |]. specialize (Hmin y Hy). lra.
Qed.

Lemma insert_In (x y : Q) (l : list Q) : In y (Np.insert x l) -> y = x \/ In y l.
Proof.
  induction l as [| z t IH]; cbn [Np.insert].
  - intros [<- | []]. now left.
  - destruct (Qleb x z).
    + intros [<- | H]; [now left | now right].
    + intros [<- | H]; [right; now left |].
      destruct (IH H) as [-> | H']; [now left | right; now right].
Qed.

Lemma length_insert (x : Q) (l : list Q) : length (Np.insert x l) = S (length l).
Proof.
  induction l as [| z t IH]; cbn [Np.insert]; [reflexivity |].
  destruct (Qleb x z); cbn [length]; [reflexivity | now rewrite IH].
Qed.

Lemma sort_In (y : Q) (l : list Q) : In y (Np.sort l) -> In y l.
Proof.
  induction l as [| x t IH]; cbn [Np.sort fold_right]; [intros [] |].
  intros H. apply insert_In in H. destruct H as [-> | H]; [now left | right; now apply IH].
Qed.

Lemma length_sort (l : list Q) : length (Np.sort l) = length l.
Proof.
  induction l as [| x t IH]; cbn [Np.sort fold_right]; [reflexivity |].
  rewrite length_insert. fold (Np.sort t). now rewrite IH.
Qed.

Lemma median_ge (x : Q) (l : list Q) :
  l <> [] -> (forall y, In y l -> (x <= y)%Q) -> (x <= Np.median l)%Q.
Proof.
  intros Hne Hmin.
  assert (0 < length l)%nat as Hlen by (destruct l; [congruence | simpl; lia]).
  assert (forall k, (k < length l)%nat -> (x <= nth k (Np.sort l) 0)%Q) as Hnth.
  { intros k Hk. apply Hmin, sort_In, nth_In. now rewrite length_sort. }
  pose proof (Nat.div_lt (length l) 2 Hlen ltac:(lia)) as Hhalf.
  unfold Np.median. cbv zeta. destruct (Nat.even (length l)).
  - pose proof (Hnth (length l / 2 - 1)%nat ltac:(lia)) as H1.
    pose proof (Hnth (length l / 2)%nat Hhalf) as H2.
    apply Qle_shift_div_l; lra.
  - now apply Hnth.
Qed.

Lemma Qdiv_nonpos (a s : Q) : (a <= 0)%Q -> (0 < s)%Q -> (a / s <= 0)%Q.
Proof.
  intros Ha Hs. unfold Qdiv. pose proof (Qinv_lt_0_compat s Hs) as Hk. nra.
Qed.

Lemma nth_map_bool {A : Type} (f : A -> bool) (l : list A) (d : A) (j : nat) :
  (j < length l)%nat -> nth j (map f l) false = f (nth j l d).
Proof.
  intros Hj. rewrite (nth_indep _ false (f d)) by now rewrite length_map.
  apply map_nth.
Qed.

(** ** No strategy flags every cell *)

Lemma zscore_misses_one (sqrtf : Q -> Q) (avg : list Q) (l : list Z) :
  avg <> [] -> strategy_zscore sqrtf avg = Some l ->
  exists i, 0 <= i < zlen avg /\ ~ In i l.
Proof.
  intros Hne. unfold strategy_zscore. cbv zeta.
  destruct (Qgtb (std sqrtf avg) (1 # 10)) eqn:Estd; [| discriminate].
  match goal with |- context [if ?c then _ else _] => destruct c end; [| discriminate].
  intros H. injection H as <-. apply Qgtb_gt in Estd.
  destruct (exists_index_le_mean avg Hne) as [j [Hj Hle]].
  exists (Z.of_nat j). split; [unfold zlen; lia |].
  intros Hin. apply where_spec in Hin. destruct Hin as [_ Hnth].
  rewrite Nat2Z.id, map_map in Hnth.
  rewrite (nth_map_bool _ avg 0%Q j Hj) in Hnth. apply Qgtb_gt in Hnth.
  assert ((nth j avg 0 - Np.mean avg) / std sqrtf avg <= 0)%Q
    by (apply Qdiv_nonpos; lra).
  lra.
Qed.

Lemma mad_misses_one (dtm : list Q) (l : list Z) :
  dtm <> [] -> strategy_mad dtm = Some l ->
  exists i, 0 <= i < zlen dtm /\ ~ In i l.
Proof.
  intros Hne. unfold strategy_mad. cbv zeta.
  match goal with |- context [if Qgtb ?m (1 # 10) then _ else _] =>
    remember m as mad eqn:Hmad; clear Hmad;
    destruct (Qgtb mad (1 # 10)) eqn:Emad end; [| discriminate].
  match goal with |- context [if ?c then _ else _] => destruct c end; [| discriminate].
  intros H. injection H as <-. apply Qgtb_gt in Emad.
  destruct (exists_min_index dtm Hne) as [j [Hj Hmin]].
  pose proof (median_ge _ dtm Hne Hmin) as Hmed.
  exists (Z.of_nat j). split; [unfold zlen; lia |].
  intros Hin. apply where_spec in Hin. destruct Hin as [_ Hnth].
  rewrite Nat2Z.id, map_map in Hnth.
  rewrite (nth_map_bool _ dtm 0%Q j Hj) in Hnth. apply Qgtb_gt in Hnth.
  match type of Hnth with (_ < ?a / ?s)%Q =>
    assert (a / s <= 0)%Q by (apply Qdiv_nonpos; lra) end.
  lra.
Qed.

Lemma nonempty_has_element {A : Type} (l : list A) : 0 < zlen l -> exists x, In x l.
Proof. destruct l as [| x t]; [unfold zlen; simpl; lia |]. intros _. exists x. now left. Qed.

Lemma complementary_disjoint (n : nat) (a b : list Z) (i : Z) :
  complementary n a b -> In i a -> In i b -> False.
Proof.
  intros [m [Hlen [-> ->]]] Ha Hb.
  apply where_spec in Ha, Hb. destruct Ha as [[Hlo Hhi] Ha], Hb as [_ Hb].
  rewrite (nth_map_bool negb m false) in Hb by (unfold zlen in Hhi; lia).
  rewrite Ha in Hb. discriminate.
Qed.

Lemma cluster_misses_one (sqrtf : Q -> Q) (colors : list color) (t : Q) (l : list Z) :
  colors <> [] -> strategy_cluster sqrtf colors t = Some l ->
  exists i, 0 <= i < zlen colors /\ ~ In i l.
Proof.
  intros Hne Hs. pose proof (final_clusters_complementary sqrtf colors) as Hc.
  destruct (complementary_ascending _ _ _ Hc) as [[_ H1] [_ H2]].
  rewrite Forall_forall in H1, H2.
  apply strategy_cluster_cases in Hs. destruct Hs as [-> | [[-> [Hpos _]] | [-> [Hpos _]]]].
  - exists 0. split; [| intros []].
    destruct colors; [congruence | unfold zlen; simpl; lia].
  - destruct (nonempty_has_element _ Hpos) as [i Hi]. exists i.
    split; [now apply H2 |]. intros Hin. exact (complementary_disjoint _ _ _ i Hc Hin Hi).
  - destruct (nonempty_has_element _ Hpos) as [i Hi]. exists i.
    split; [now apply H1 |]. intros Hin. exact (complementary_disjoint _ _ _ i Hc Hi Hin).
Qed.

(** C9: for at least two colours and a positive sensitivity, the indices
    [_find_different] returns all lie in [0, n) and never cover every cell:
    some cell is left unflagged. *)
Theorem find_different_strict_subset (sqrtf : Q -> Q) (cell_colors : list color)
        (sensitivity : Q) :
  2 <= zlen cell_colors ->
  (0 < sensitivity)%Q ->
  Forall (fun i => 0 <= i < zlen cell_colors)
         (_find_different sqrtf cell_colors sensitivity) /\
  NoDup (_find_different sqrtf cell_colors sensitivity) /\
  exists i, 0 <= i < zlen cell_colors /\
            ~ In i (_find_different sqrtf cell_colors sensitivity).
Proof.
  intros Hn _.
  destruct (find_different_ascending sqrtf cell_colors sensitivity) as [Hs Hrange].
  split; [exact Hrange |]. split.
  { clear Hrange. induction Hs as [| i l Hs IH Hall]; constructor; [| exact IH].
    intros Hin. rewrite Forall_forall in Hall. specialize (Hall i Hin). lia. }
  clear Hs Hrange.
  assert (cell_colors <> []) as Hne by (intros ->; unfold zlen in Hn; simpl in Hn; lia).
  unfold _find_different.
  assert ((zlen cell_colors <? 2) = false) as -> by (apply Z.ltb_ge; lia).
  cbv zeta.
  match goal with |- context [if ?c then _ else _] => destruct c end;
    [exists 0; split; [lia | intros []] |].
  destruct (strategy_zscore sqrtf (avg_distances_of sqrtf cell_colors)) as [l |] eqn:Ez.
  { apply zscore_misses_one in Ez.
    - unfold zlen in Ez. rewrite length_avg_distances in Ez. exact Ez.
    - intros H. apply (f_equal (@length Q)) in H. rewrite length_avg_distances in H.
      unfold zlen in Hn. simpl in H. lia. }
  destruct (strategy_mad (distances_to_median_of sqrtf cell_colors)) as [l |] eqn:Em.
  { apply mad_misses_one in Em.
    - unfold zlen in Em. rewrite length_distances_to_median in Em. exact Em.
    - intros H. apply (f_equal (@length Q)) in H. rewrite length_distances_to_median in H.
      unfold zlen in Hn. simpl in H. lia. }
  destruct (strategy_cluster sqrtf cell_colors (10 / sensitivity)) as [l |] eqn:Ec.
  { exact (cluster_misses_one _ _ _ _ Hne Ec). }
  unfold last_resort.
  match goal with |- context [if ?c then _ else _] => destruct c end;
    [| exists 0; split; [lia | intros []]].
  destruct (Z.eq_dec (Np.argmax (distances_to_median_of sqrtf cell_colors)) 0) as [-> | Hnz].
  - exists 1. split; [lia |]. intros [H | []]. discriminate.
  - exists 0. split; [lia |]. intros [H | []]. congruence.
Qed.

Lemma find_different_strict_subset_witness :
  Forall (fun i => 0 <= i < zlen [(0, 0, 0); (0, 0, 0); (100, 0, 0)]%Q)
         (_find_different sqrt_fix [(0, 0, 0); (0, 0, 0); (100, 0, 0)]%Q 1) /\
  NoDup (_find_different sqrt_fix [(0, 0, 0); (0, 0, 0); (100, 0, 0)]%Q 1) /\
  exists i, 0 <= i < zlen [(0, 0, 0); (0, 0, 0); (100, 0, 0)]%Q /\
            ~ In i (_find_different sqrt_fix [(0, 0, 0); (0, 0, 0); (100, 0, 0)]%Q 1).
Proof.
  apply (find_different_strict_subset sqrt_fix [(0, 0, 0); (0, 0, 0); (100, 0, 0)]%Q 1%Q).
  - vm_compute. discriminate.
  - reflexivity.
Defined.

(** ** Uniform images *)

Lemma firstn_repeat_min {A : Type} (x : A) (k n : nat) :
  firstn k (repeat x n) = repeat x (Nat.min k n).
Proof.
  revert n. induction k as [| k IH]; intros [| n]; cbn; try reflexivity.
  now rewrite IH.
Qed.

Lemma skipn_repeat_sub {A : Type} (x : A) (k n : nat) :
  skipn k (repeat x n) = repeat x (n - k).
Proof.
  revert n. induction k as [| k IH]; intros [| n]; cbn [skipn repeat Nat.sub]; try reflexivity.
  apply IH.
Qed.

Lemma zlen_repeat {A : Type} (x : A) (n : nat) : zlen (repeat x n) = Z.of_nat n.
Proof. unfold zlen. now rewrite repeat_length. Qed.

Lemma slice_head_repeat {A : Type} (x : A) (n : nat) :
  Np.slice 0 5 (repeat x n) = repeat x (Nat.min 5 n).
Proof.
  unfold Np.slice, Np.clip_index. rewrite zlen_repeat. cbn [Z.ltb Z.compare].
  rewrite skipn_repeat_sub, firstn_repeat_min. f_equal. lia.
Qed.

Lemma slice_tail_repeat {A : Type} (x : A) (n : nat) :
  Np.slice_from (-5) (repeat x n) = repeat x (Nat.min 5 n).
Proof.
  unfold Np.slice_from, Np.clip_index. rewrite zlen_repeat. cbn [Z.ltb Z.compare].
  rewrite skipn_repeat_sub. f_equal. lia.
Qed.

Lemma firstn_incl {A : Type} (n : nat) (l : list A) (x : A) : In x (firstn n l) -> In x l.
Proof. intros H. rewrite <- (firstn_skipn n l). apply in_or_app. now left. Qed.

Lemma skipn_incl {A : Type} (n : nat) (l : list A) (x : A) : In x (skipn n l) -> In x l.
Proof. intros H. rewrite <- (firstn_skipn n l). apply in_or_app. now right. Qed.

Lemma slice_incl {A : Type} (lo hi : Z) (l : list A) (x : A) : In x (Np.slice lo hi l) -> In x l.
Proof. unfold Np.slice. intros H. now apply firstn_incl, skipn_incl in H. Qed.

Lemma slice2_all_equal {A : Type} (x : A) (r0 r1 c0 c1 : Z) (m : list (list A)) :
  all_equal x m -> all_equal x (Np.slice2 r0 r1 c0 c1 m).
Proof.
  intros H row Hrow y Hy. unfold Np.slice2 in Hrow. apply in_map_iff in Hrow.
  destruct Hrow as [row' [<- Hrow']]. apply slice_incl in Hrow', Hy.
  exact (H row' Hrow' y Hy).
Qed.

Lemma solid_all_equal (h w : nat) (p : pixel) : all_equal p (solid h w p).
Proof.
  intros row Hrow y Hy. unfold solid in Hrow.
  apply repeat_spec in Hrow. subst row. now apply repeat_spec in Hy.
Qed.

Lemma concat_all_equal {A : Type} (x : A) (m : list (list A)) (y : A) :
  all_equal x m -> In y (concat m) -> y = x.
Proof.
  intros H Hy. apply in_concat in Hy. destruct Hy as [row [Hrow Hy]]. exact (H row Hrow y Hy).
Qed.

Lemma sum_all_eq (g : Q) (l : list Q) :
  (forall y, In y l -> (y == g)%Q) -> (Np.sum l == inject_Z (zlen l) * g)%Q.
Proof.
  induction l as [| x t IH]; intros H.
  - unfold zlen, Np.sum. cbn [length fold_right Z.of_nat].
    change (inject_Z 0) with 0%Q. ring.
  - rewrite inject_zlen_cons. cbn [Np.sum fold_right]. fold (Np.sum t).
    rewrite IH by (intros y Hy; apply H; now right).
    rewrite (H x) by now left. ring.
Qed.

Lemma inject_zlen_pos {A : Type} (l : list A) : l <> [] -> (0 < inject_Z (zlen l))%Q.
Proof.
  destruct l as [| x t]; [congruence |]. intros _.
  change 0%Q with (inject_Z 0). rewrite <- Zlt_Qlt. unfold zlen. simpl. lia.
Qed.

Lemma mean_all_eq (g : Q) (l : list Q) :
  l <> [] -> (forall y, In y l -> (y == g)%Q) -> (Np.mean l == g)%Q.
Proof.
  intros Hne H. unfold Np.mean. rewrite (sum_all_eq g l H).
  pose proof (inject_zlen_pos l Hne). field. lra.
Qed.

Lemma median_all_eq (g : Q) (l : list Q) :
  l <> [] -> (forall y, In y l -> (y == g)%Q) -> (Np.median l == g)%Q.
Proof.
  intros Hne H.
  assert (0 < length l)%nat as Hlen by (destruct l; [congruence | simpl; lia]).
  assert (forall k, (k < length l)%nat -> (nth k (Np.sort l) 0 == g)%Q) as Hnth.
  { intros k Hk. apply H, sort_In, nth_In. now rewrite length_sort. }
  pose proof (Nat.div_lt (length l) 2 Hlen ltac:(lia)) as Hhalf.
  unfold Np.median. cbv zeta. destruct (Nat.even (length l)).
  - rewrite (Hnth (length l / 2 - 1)%nat) by lia. rewrite (Hnth (length l / 2)%nat Hhalf).
    field.
  - now apply Hnth.
Qed.

Lemma to_gray_solid (h w : nat) (p : pixel) :
  to_gray (solid h w p) = repeat (repeat (brightness p) w) h.
Proof. unfold to_gray, solid. now rewrite !map_repeat. Qed.

Lemma mean_corner (g : Q) (a b : nat) :
  (0 < a)%nat -> (0 < b)%nat -> (Np.mean (concat (repeat (repeat g a) b)) == g)%Q.
Proof.
  intros Ha Hb. apply mean_all_eq.
  - destruct b as [| b]; [lia |]. destruct a as [| a]; [lia |]. cbn. discriminate.
  - intros y Hy. apply in_concat in Hy. destruct Hy as [row [Hrow Hy]].
    apply repeat_spec in Hrow. subst row. apply repeat_spec in Hy. now subst y.
Qed.

Lemma foreground_solid (h w : nat) (p : pixel) :
  (0 < h)%nat -> (0 < w)%nat ->
  foreground_of (solid h w p) = repeat (repeat false w) h.
Proof.
  intros Hh Hw. unfold foreground_of. rewrite to_gray_solid. cbv zeta.
  rewrite !slice_head_repeat, !slice_tail_repeat, !map_repeat,
          !slice_head_repeat, !slice_tail_repeat.
  cbn [map]. set (g := brightness p).
  set (m := Np.mean (concat (repeat (repeat g (Nat.min 5 w)) (Nat.min 5 h)))).
  assert (m == g)%Q as Hm by (apply mean_corner; lia).
  assert (Np.median [m; m; m; m] == g)%Q as Hmed.
  { apply median_all_eq; [discriminate |].
    intros y Hy. cbn in Hy. now repeat (destruct Hy as [<- | Hy]). }
  assert (Qltb g (Np.median [m; m; m; m] - 20) = false) as ->
      by (apply Qltb_ge; lra).
  reflexivity.
Qed.

Lemma no_foreground_solid (h w : nat) (p : pixel) :
  (0 < h)%nat -> (0 < w)%nat -> no_foreground (foreground_of (solid h w p)) = true.
Proof.
  intros Hh Hw. rewrite foreground_solid by assumption.
  unfold no_foreground. rewrite any_rows_has_foreground.
  assert (has_foreground (repeat (repeat false w) h) = false) as ->; [| reflexivity].
  unfold has_foreground. apply not_true_is_false. intros H.
  apply existsb_exists in H. destruct H as [row [Hrow H]].
  apply repeat_spec in Hrow. subst row.
  apply existsb_exists in H. destruct H as [b [Hb H]].
  apply repeat_spec in Hb. subst b. discriminate.
Qed.

Lemma mean3_compat (a b c a' b' c' : Q) :
  (a == a')%Q -> (b == b')%Q -> (c == c')%Q -> (Np.mean [a; b; c] == Np.mean [a'; b'; c'])%Q.
Proof.
  intros Ha Hb Hc. unfold Np.mean, Np.sum, zlen. cbn [fold_right length].
  now rewrite Ha, Hb, Hc.
Qed.

Lemma mean_color_all_equal (p : pixel) (region : list (list pixel)) :
  all_equal p region -> 0 < region_size region ->
  (Np.mean [cr (mean_color region); cg (mean_color region); cb (mean_color region)]
   == brightness p)%Q.
Proof.
  intros Hall Hsize. unfold mean_color, brightness. cbv zeta. cbn [cr cg cb fst snd].
  assert (concat region <> []) as Hne.
  { intros H. unfold region_size in Hsize. rewrite H in Hsize. unfold zlen in Hsize.
    simpl in Hsize. lia. }
  assert (forall f : pixel -> Q, (Np.mean (map f (concat region)) == f p)%Q) as Hmean.
  { intros f. apply mean_all_eq.
    - intros H. apply map_eq_nil in H. contradiction.
    - intros y Hy. apply in_map_iff in Hy. destruct Hy as [q [<- Hq]].
      now rewrite (concat_all_equal p region q Hall Hq). }
  apply mean3_compat; apply Hmean.
Qed.

Lemma score_colors_bright (img : image) (p : pixel) (cells : list rect) :
  all_equal p img -> (200 < brightness p)%Q -> cells <> [] ->
  score_colors img cells = None.
Proof.
  intros Hall Hbright Hne. destruct cells as [| [[[x y] w] h] rest]; [congruence |].
  cbn [score_colors]. cbv zeta.
  match goal with |- context [Np.slice2 ?a ?b ?c ?d img] =>
    set (region := Np.slice2 a b c d img) end.
  destruct (0 <? region_size region) eqn:Esize; [| reflexivity].
  apply Z.ltb_lt in Esize.
  assert (all_equal p region) as Hreg by (unfold region; now apply slice2_all_equal).
  pose proof (mean_color_all_equal p region Hreg Esize) as Hm.
  match goal with |- context [if ?c then _ else _] =>
    assert (c = true) as ->; [| reflexivity] end.
  apply Qgtb_gt. rewrite Hm. exact Hbright.
Qed.

Lemma score_grid_bright (sqrtf : Q -> Q) (img : image) (p : pixel) (cells : list rect)
      (rows cols : Z) :
  all_equal p img -> (200 < brightness p)%Q -> cells <> [] ->
  _score_grid sqrtf img cells rows cols = 0%Q.
Proof.
  intros Hall Hbright Hne. unfold _score_grid.
  now rewrite (score_colors_bright img p cells Hall Hbright Hne).
Qed.

Lemma fallback_grid_none (sqrtf : Q -> Q) (img : image) :
  (forall rc, In rc (considered_candidates img) -> (candidate_score sqrtf img rc <= 0)%Q) ->
  _fallback_grid sqrtf img = None.
Proof.
  intros Hall. rewrite fallback_grid_pick.
  destruct (pick_fold_spec (candidate_grid img) (candidate_score sqrtf img)
              (considered_candidates img) None 0%Q)
    as [[Hf _] | (pre & rc & post & Hl & _ & Hlt & _)]; [now rewrite Hf |].
  exfalso.
  assert (candidate_score sqrtf img rc <= 0)%Q
    by (apply Hall; rewrite Hl; apply in_or_app; right; now left).
  lra.
Qed.

Lemma shape_solid (h w : nat) (p : pixel) :
  (0 < h)%nat -> shape0 (solid h w p) = Z.of_nat h /\ shape1 (solid h w p) = Z.of_nat w.
Proof.
  intros Hh. unfold shape0, shape1, solid. rewrite zlen_repeat. split; [reflexivity |].
  destruct h as [| h]; [lia |]. cbn [repeat hd]. apply zlen_repeat.
Qed.

(** ** Uniform images and the no-grid error *)

(** C3, as the code has it: on a uniform solid-colour image whose brightness
    (the mean of the three channels) exceeds 200, or whose height or width is
    below 40 pixels, [analyze] returns the no-grid error. *)
Theorem uniform_image_no_grid (sqrtf : Q -> Q) (h w : nat) (p : pixel)
        (sensitivity : Q) (debug : bool) :
  (0 < h)%nat -> (0 < w)%nat ->
  ((200 < brightness p)%Q \/ (h < 40)%nat \/ (w < 40)%nat) ->
  analyze sqrtf (solid h w p) sensitivity debug = None.
Proof.
  intros Hh Hw Hcond. unfold analyze.
  rewrite detect_grid_cases, (no_foreground_solid h w p Hh Hw).
  rewrite fallback_grid_none; [reflexivity |].
  intros [rows cols] Hin. apply considered_candidates_spec in Hin.
  destruct Hin as (Hr & Hc & _ & Hch & Hcw).
  destruct (shape_solid h w p Hh) as [Hs0 Hs1]. rewrite Hs0 in Hch. rewrite Hs1 in Hcw.
  destruct Hcond as [Hbright | [Hsmall | Hsmall]].
  - unfold candidate_score. rewrite (score_grid_bright sqrtf _ p); [lra | | exact Hbright |].
    + apply solid_all_equal.
    + intros Hnil. apply (f_equal (@zlen rect)) in Hnil.
      rewrite zlen_uniform_cells in Hnil by lia. unfold zlen in Hnil. simpl in Hnil. nia.
  - exfalso. assert (Z.of_nat h / rows < 20) by (apply Z.div_lt_upper_bound; lia). lia.
  - exfalso. assert (Z.of_nat w / cols < 20) by (apply Z.div_lt_upper_bound; lia). lia.
Qed.

Lemma uniform_image_no_grid_witness :
  analyze sqrt_fix (solid 40 40 (250, 250, 250)) (15 # 10) false = None.
Proof.
  apply (uniform_image_no_grid sqrt_fix 40 40 (250, 250, 250) (15 # 10) false).
  - lia.
  - lia.
  - left. vm_compute. reflexivity.
Defined.

(** The claim C3 as written fails: a uniform 40x40 image of the dark grey
    [(100, 100, 100)] has no foreground, every candidate of the fallback
    scores [0.6], and [analyze] returns a 2x2 grid. *)
Lemma uniform_image_counterexample :
  ~ (forall (sqrtf : Q -> Q) (h w : nat) (p : pixel) (sensitivity : Q) (debug : bool),
        (0 < h)%nat -> (0 < w)%nat ->
        analyze sqrtf (solid h w p) sensitivity debug = None).
Proof.
  intros H.
  specialize (H sqrt_fix 40%nat 40%nat (100, 100, 100) (15 # 10)%Q false
                ltac:(lia) ltac:(lia)).
  vm_compute in H. discriminate.
Qed.

Example uniform_dark_image_grid :
  analyze sqrt_fix (solid 40 40 (100, 100, 100)) (15 # 10) false =
  Some (mk_analysis (2, 2) [] None) /\
  Qeq (candidate_score sqrt_fix (solid 40 40 (100, 100, 100)) (2, 2)) (6 # 10).
Proof. split; vm_compute; reflexivity. Qed.

(** * Further properties of the analyzer *)

(** ** Colours that are pairwise close *)

Lemma sum_lt (m : Q) (l : list Q) :
  l <> [] -> (forall x, In x l -> (x < m)%Q) -> (Np.sum l < inject_Z (zlen l) * m)%Q.
Proof.
  intros Hne. induction l as [| x t IH]; [congruence |]. intros H.
  rewrite inject_zlen_cons. cbn [Np.sum fold_right]. fold (Np.sum t).
  assert (x < m)%Q by (apply H; now left).
  destruct t as [| y t'].
  - unfold zlen, Np.sum. cbn [length fold_right Z.of_nat].
    change (inject_Z 0) with 0%Q. lra.
  - assert (Np.sum (y :: t') < inject_Z (zlen (y :: t')) * m)%Q
      by (apply IH; [discriminate | intros z Hz; apply H; now right]).
    lra.
Qed.

Lemma mean_lt (m : Q) (l : list Q) :
  l <> [] -> (forall x, In x l -> (x < m)%Q) -> (Np.mean l < m)%Q.
Proof.
  intros Hne H. unfold Np.mean. apply Qlt_shift_div_r.
  - now apply inject_zlen_pos.
  - rewrite Qmult_comm. now apply sum_lt.
Qed.

Lemma in_range_iff (n i : Z) : In i (range n) <-> 0 <= i < n.
Proof.
  unfold range. rewrite in_map_iff. split.
  - intros [k [<- Hk]]. apply in_seq in Hk. lia.
  - intros H. exists (Z.to_nat i). split; [lia |]. apply in_seq. lia.
Qed.

Lemma avg_distances_lt (sqrtf : Q -> Q) (colors : list color) (t : Q) :
  2 <= zlen colors ->
  (forall i j, 0 <= i < zlen colors -> 0 <= j < zlen colors -> i <> j ->
               (dist sqrtf (cnth colors i) (cnth colors j) < t)%Q) ->
  forall a, In a (avg_distances_of sqrtf colors) -> (a < t)%Q.
Proof.
  intros Hn Hclose a Ha. unfold avg_distances_of in Ha. cbv zeta in Ha.
  apply in_map_iff in Ha. destruct Ha as [i [<- Hi]]. apply in_range_iff in Hi.
  apply mean_lt.
  - intros Hnil. apply map_eq_nil in Hnil.
    assert (In (if i =? 0 then 1 else 0)
               (filter (fun j => negb (i =? j)) (range (zlen colors)))) as Hin.
    { apply filter_In. split.
      - apply in_range_iff. destruct (i =? 0); lia.
      - destruct (i =? 0) eqn:E0.
        + apply Z.eqb_eq in E0. subst i. reflexivity.
        + rewrite E0. reflexivity. }
    rewrite Hnil in Hin. contradiction.
  - intros d Hd. apply in_map_iff in Hd. destruct Hd as [j [<- Hj]].
    apply filter_In in Hj. destruct Hj as [Hj Hne]. apply in_range_iff in Hj.
    apply negb_true_iff, Z.eqb_neq in Hne. now apply Hclose.
Qed.



(** ** Raising the sensitivity *)

Lemma threshold_antitone (s1 s2 : Q) :
  (0 < s1)%Q -> (s1 <= s2)%Q -> (10 / s2 <= 10 / s1)%Q.
Proof.
  intros H1 H12. assert (0 < s2)%Q as H2 by lra.
  apply Qle_shift_div_l; [exact H1 |].
  assert (10 / s2 * s1 == 10 * (s1 / s2))%Q as -> by (field; lra).
  assert (s1 / s2 <= 1)%Q by (apply Qle_shift_div_r; lra).
  lra.
Qed.

Lemma strategy_cluster_threshold (sqrtf : Q -> Q) (colors : list color) (t1 t2 : Q) :
  (t2 <= t1)%Q ->
  strategy_cluster sqrtf colors t1 <> Some [] ->
  strategy_cluster sqrtf colors t2 = strategy_cluster sqrtf colors t1.
Proof.
  intros Ht. unfold strategy_cluster.
  destruct (furthest_pair sqrtf colors) as [[d i] j].
  destruct (Qltb d t1) eqn:E1; [congruence |]. intros _.
  apply Qltb_ge in E1.
  assert (Qltb d t2 = false) as -> by (apply Qltb_ge; lra).
  reflexivity.
Qed.

Lemma find_different_threshold (sqrtf : Q -> Q) (cell_colors : list color) (s1 s2 : Q) :
  (10 / s2 <= 10 / s1)%Q ->
  _find_different sqrtf cell_colors s1 <> [] ->
  _find_different sqrtf cell_colors s2 = _find_different sqrtf cell_colors s1.
Proof.
  intros Ht. unfold _find_different.
  destruct (zlen cell_colors <? 2); [congruence |]. cbv zeta.
  destruct (Qltb (Np.maxl (avg_distances_of sqrtf cell_colors)) (10 / s1)) eqn:E1;
    [congruence |].
  apply Qltb_ge in E1.
  assert (Qltb (Np.maxl (avg_distances_of sqrtf cell_colors)) (10 / s2) = false) as ->
      by (apply Qltb_ge; lra).
  destruct (strategy_zscore sqrtf (avg_distances_of sqrtf cell_colors)); [reflexivity |].
  destruct (strategy_mad (distances_to_median_of sqrtf cell_colors)); [reflexivity |].
  intros Hne.
  rewrite (strategy_cluster_threshold sqrtf cell_colors _ _ Ht).
  - destruct (strategy_cluster sqrtf cell_colors (10 / s1)); [reflexivity |].
    unfold last_resort in *.
    match type of Hne with context [if ?c then _ else _] => destruct c eqn:E end;
      [| congruence].
    apply Qgtb_gt in E.
    match goal with |- context [if ?c then _ else _] =>
      assert (c = true) as ->; [apply Qgtb_gt; lra | reflexivity] end.
  - intros Hs. rewrite Hs in Hne. congruence.
Qed.

(** X2: once [_find_different] reports outliers at some positive
    sensitivity, it reports exactly the same outliers at every higher
    sensitivity. *)
Theorem find_different_stable_above (sqrtf : Q -> Q) (cell_colors : list color)
        (s1 s2 : Q) :
  (0 < s1)%Q -> (s1 <= s2)%Q ->
  _find_different sqrtf cell_colors s1 <> [] ->
  _find_different sqrtf cell_colors s2 = _find_different sqrtf cell_colors s1.
Proof.
  intros H1 H12. apply find_different_threshold. now apply threshold_antitone.
Qed.

Lemma find_different_stable_above_witness :
  _find_different sqrt_fix [(0, 0, 0); (0, 0, 0); (100, 0, 0)]%Q 2 =
  _find_different sqrt_fix [(0, 0, 0); (0, 0, 0); (100, 0, 0)]%Q 1.
Proof.
  apply (find_different_stable_above sqrt_fix [(0, 0, 0); (0, 0, 0); (100, 0, 0)]%Q 1%Q 2%Q).
  - reflexivity.
  - vm_compute. discriminate.
  - vm_compute. discriminate.
Defined.

(** ** The fallback on small images, and the grids it returns *)

(** X3: on an image less than 40 pixels high or less than 40 pixels wide the
    brute-force fallback finds no grid, so such an image without foreground
    makes [analyze] fail. *)
Theorem fallback_grid_small_image (sqrtf : Q -> Q) (img : image) (sensitivity : Q)
        (debug : bool) :
  shape0 img < 40 \/ shape1 img < 40 ->
  _fallback_grid sqrtf img = None /\
  (no_foreground (foreground_of img) = true -> analyze sqrtf img sensitivity debug = None).
Proof.
  intros Hsmall.
  assert (_fallback_grid sqrtf img = None) as Hnone.
  { apply fallback_grid_none. intros [rows cols] Hin.
    apply considered_candidates_spec in Hin. destruct Hin as (Hr & Hc & _ & Hch & Hcw).
    exfalso. destruct Hsmall as [Hs | Hs].
    - assert (shape0 img / rows < 20) by (apply Z.div_lt_upper_bound; lia). lia.
    - assert (shape1 img / cols < 20) by (apply Z.div_lt_upper_bound; lia). lia. }
  split; [exact Hnone |].
  intros Hfg. unfold analyze. now rewrite detect_grid_cases, Hfg, Hnone.
Qed.

Lemma fallback_grid_small_image_witness :
  _fallback_grid sqrt_fix (solid 39 100 (10, 20, 30)) = None /\
  (no_foreground (foreground_of (solid 39 100 (10, 20, 30))) = true ->
   analyze sqrt_fix (solid 39 100 (10, 20, 30)) 1 false = None).
Proof.
  apply (fallback_grid_small_image sqrt_fix (solid 39 100 (10, 20, 30)) 1%Q false).
  left. vm_compute. reflexivity.
Defined.

Lemma ratio_range (c n : Z) :
  0 <= c <= n -> (0 <= inject_Z c / inject_Z n <= 1)%Q.
Proof.
  intros [Hc Hn]. destruct (Z.eq_dec n 0) as [-> | Hnz].
  - assert (c = 0) as -> by lia. vm_compute. split; discriminate.
  - assert (0 < inject_Z n)%Q by (change 0%Q with (inject_Z 0); rewrite <- Zlt_Qlt; lia).
    assert (0 <= inject_Z c)%Q by (change 0%Q with (inject_Z 0); now rewrite <- Zle_Qle).
    assert (inject_Z c <= inject_Z n)%Q by now rewrite <- Zle_Qle.
    split; [apply Qle_shift_div_l | apply Qle_shift_div_r]; lra.
Qed.

Lemma zlen_filter_le {A : Type} (f : A -> bool) (l : list A) :
  0 <= zlen (filter f l) <= zlen l.
Proof. unfold zlen. pose proof (filter_length_le f l). lia. Qed.

Lemma score_grid_range (sqrtf : Q -> Q) (img : image) (cells : list rect) (rows cols : Z) :
  (0 <= _score_grid sqrtf img cells rows cols <= 1)%Q /\
  ((0 < _score_grid sqrtf img cells rows cols)%Q ->
   (42 # 100 <= _score_grid sqrtf img cells rows cols)%Q).
Proof.
  unfold _score_grid. destruct (score_colors img cells) as [colors |]; [| split; lra].
  destruct (negb (zlen colors =? rows * cols)); [split; lra |]. cbv zeta.
  match goal with |- context [(inject_Z ?c / inject_Z ?n)%Q] =>
    assert (0 <= inject_Z c / inject_Z n <= 1)%Q as Hsim;
      [apply ratio_range | set (similarity := (inject_Z c / inject_Z n)%Q) in *] end.
  { match goal with |- context [zlen (filter ?f ?l)] =>
      pose proof (zlen_filter_le f l) as Hf end.
    rewrite zlen_map in Hf. exact Hf. }
  destruct (Qltb similarity (7 # 10)) eqn:E7; [split; lra |].
  apply Qltb_ge in E7.
  match goal with |- context [if ?c then _ else _] => destruct c end; split; lra.
Qed.

Lemma in_uniform_cells (rows cols ch cw : Z) (cell : rect) :
  In cell (uniform_cells rows cols ch cw) ->
  exists i j, 0 <= i < rows /\ 0 <= j < cols /\ cell = (j * cw, i * ch, cw, ch).
Proof.
  unfold uniform_cells. intros H. apply in_flat_map in H. destruct H as [i [Hi H]].
  apply in_map_iff in H. destruct H as [j [<- Hj]].
  apply in_range_iff in Hi, Hj. now exists i, j.
Qed.

Lemma fallback_grid_positive_score (sqrtf : Q -> Q) (img : image) (rows cols : Z)
      (cells : list rect) :
  _fallback_grid sqrtf img = Some (rows, cols, cells) ->
  (0 < _score_grid sqrtf img cells rows cols)%Q.
Proof.
  rewrite fallback_grid_pick.
  destruct (pick_fold_spec (candidate_grid img) (candidate_score sqrtf img)
              (considered_candidates img) None 0%Q)
    as [[Hf _] | (pre & [r c] & post & _ & Hf & Hlt & _)]; rewrite Hf; simpl fst;
    [discriminate |].
  unfold candidate_grid. intros H. inversion H; subst. exact Hlt.
Qed.

Lemma uniform_cells_inside (img : image) (rows cols : Z) (cell : rect) :
  0 < rows -> 0 < cols ->
  20 <= shape0 img / rows -> 20 <= shape1 img / cols ->
  In cell (uniform_cells rows cols (shape0 img / rows) (shape1 img / cols)) ->
  cell_inside img cell /\
  exists w h, cell = (fst (fst (fst cell)), snd (fst (fst cell)), w, h) /\ 20 <= w /\ 20 <= h.
Proof.
  intros Hr Hc Hch Hcw Hin. apply in_uniform_cells in Hin.
  destruct Hin as (i & j & Hi & Hj & ->). cbn [fst snd]. split.
  - unfold cell_inside.
    pose proof (Z.mul_div_le (shape0 img) rows Hr).
    pose proof (Z.mul_div_le (shape1 img) cols Hc).
    repeat split; try nia.
  - eexists _, _. split; [reflexivity |]. split; assumption.
Qed.

(** X4: a grid returned by the brute-force fallback has between 2 and 7 rows
    and columns, every one of its cells is at least 20 pixels wide and high
    and lies inside the image, and its score is at least 0.42 and at most 1. *)
Theorem fallback_grid_geometry (sqrtf : Q -> Q) (img : image) (rows cols : Z)
        (cells : list rect) :
  _fallback_grid sqrtf img = Some (rows, cols, cells) ->
  2 <= rows <= 7 /\ 2 <= cols <= 7 /\
  (forall cell, In cell cells ->
     cell_inside img cell /\
     exists w h, cell = (fst (fst (fst cell)), snd (fst (fst cell)), w, h) /\
                 20 <= w /\ 20 <= h) /\
  (42 # 100 <= _score_grid sqrtf img cells rows cols <= 1)%Q.
Proof.
  intros H. pose proof (fallback_grid_positive_score _ _ _ _ _ H) as Hpos.
  destruct (fallback_grid_shape _ _ _ _ _ H) as [Hin ->].
  apply considered_candidates_spec in Hin. destruct Hin as (Hr & Hc & _ & Hch & Hcw).
  split; [exact Hr |]. split; [exact Hc |]. split.
  - intros cell Hcell. apply (uniform_cells_inside img rows cols); try assumption; lia.
  - match goal with |- (_ <= ?s <= _)%Q =>
      destruct (score_grid_range sqrtf img
                  (uniform_cells rows cols (shape0 img / rows) (shape1 img / cols))
                  rows cols) as [[_ Hle] Hge] end.
    split; [now apply Hge | exact Hle].
Qed.

Lemma fallback_grid_geometry_witness :
  _fallback_grid sqrt_fix (solid 40 40 (100, 100, 100)) =
    Some (2, 2, [(0, 0, 20, 20); (20, 0, 20, 20); (0, 20, 20, 20); (20, 20, 20, 20)]) /\
  2 <= 2 <= 7 /\ 2 <= 2 <= 7 /\
  (forall cell,
     In cell [(0, 0, 20, 20); (20, 0, 20, 20); (0, 20, 20, 20); (20, 20, 20, 20)] ->
     cell_inside (solid 40 40 (100, 100, 100)) cell /\
     exists w h, cell = (fst (fst (fst cell)), snd (fst (fst cell)), w, h) /\
                 20 <= w /\ 20 <= h) /\
  (let score :=
     _score_grid sqrt_fix (solid 40 40 (100, 100, 100))
       [(0, 0, 20, 20); (20, 0, 20, 20); (0, 20, 20, 20); (20, 20, 20, 20)] 2 2 in
   (42 # 100 <= score <= 1)%Q).
Proof.
  assert (_fallback_grid sqrt_fix (solid 40 40 (100, 100, 100)) =
          Some (2, 2, [(0, 0, 20, 20); (20, 0, 20, 20); (0, 20, 20, 20); (20, 20, 20, 20)]))
    as H by (vm_compute; reflexivity).
  split; [exact H |].
  exact (fallback_grid_geometry sqrt_fix (solid 40 40 (100, 100, 100)) 2 2 _ H).
Defined.

(** ** The split coordinates of [_find_gaps] *)

Lemma sorted_le_last (l : list Z) (s : Z) :
  StronglySorted Z.lt l -> In s l -> s <= last l 0.
Proof.
  intros Hsorted. revert s.
  induction Hsorted as [| a l Hs IH Hall]; intros s; [intros [] |].
  intros [<- | Hin].
  - destruct l as [| b l']; [cbn; lia |].
    change (last (a :: b :: l') 0) with (last (b :: l') 0).
    rewrite Forall_forall in Hall.
    assert (a < b) by (apply Hall; now left).
    assert (b <= last (b :: l') 0) by (apply IH; now left). lia.
  - destruct l as [| b l']; [contradiction |].
    change (last (a :: b :: l') 0) with (last (b :: l') 0). now apply IH.
Qed.

Lemma sorted_snoc (l : list Z) (x : Z) :
  StronglySorted Z.lt l -> (forall s, In s l -> s < x) -> StronglySorted Z.lt (l ++ [x]).
Proof.
  induction 1 as [| a l Hs IH Hall]; intros Hlt; cbn [app].
  - repeat constructor.
  - constructor.
    + apply IH. intros s Hs'. apply Hlt. now right.
    + apply Forall_app. split; [exact Hall |].
      constructor; [apply Hlt; now left | constructor].
Qed.

Lemma half_sum_below (gs i : Z) : gs < i -> (gs + i) / 2 <= i - 1.
Proof.
  intros H. assert ((gs + i) / 2 < i); [| lia].
  apply Z.div_lt_upper_bound; lia.
Qed.

Lemma gap_step_invariant (start end_ : Z) (k : nat) (st : gap_state) (g : bool) :
  0 <= end_ - start ->
  gap_invariant start end_ k st ->
  gap_invariant start end_ (S k) (gap_step start end_ st (Z.of_nat k, g)).
Proof.
  intros HL (Hhd & Hs & Hb & Hg & Hc). unfold gap_step.
  assert (Forall (fun s => s < start + Z.max (Z.of_nat (S k)) 1) (splits st)) as Hb'.
  { eapply Forall_impl; [| exact Hb]. cbv beta. intros; lia. }
  destruct (g && negb (in_gap st)) eqn:E1.
  - repeat split; cbn [splits in_gap gap_start]; try assumption. intros _. lia.
  - destruct (negb g && in_gap st) eqn:E2.
    + apply andb_true_iff in E2. destruct E2 as [_ Hin]. specialize (Hg Hin).
      pose proof (half_sum_below _ _ Hg) as Hmid.
      set (gap_mid := start + (gap_start st + Z.of_nat k) / 2) in *.
      destruct (Qgtb (inject_Z (gap_mid - last (splits st) 0))
                     (inject_Z (end_ - start) * (5 # 100))) eqn:E3.
      * apply Qgtb_gt in E3.
        assert (0 <= inject_Z (end_ - start))%Q as HLq
            by (change 0%Q with (inject_Z 0); now rewrite <- Zle_Qle).
        assert (last (splits st) 0 < gap_mid) as Hlast.
        { assert (Qlt (inject_Z 0) (inject_Z (gap_mid - last (splits st) 0))) as Hq
              by (change (inject_Z 0) with 0%Q; lra).
          rewrite <- Zlt_Qlt in Hq. lia. }
        repeat split; cbn [splits in_gap gap_start].
        -- destruct Hhd as [mid Hmidl]. exists (mid ++ [gap_mid]). now rewrite Hmidl.
        -- apply sorted_snoc; [exact Hs |]. intros s Hin'.
           pose proof (sorted_le_last _ _ Hs Hin'). lia.
        -- apply Forall_app. split; [exact Hb' |]. constructor; [lia | constructor].
        -- discriminate.
        -- rewrite last_last, zlen_app.
           replace (zlen (splits st) + zlen [gap_mid] - 1) with ((zlen (splits st) - 1) + 1)
             by (unfold zlen; simpl; lia).
           replace (gap_mid - start)
             with ((gap_mid - last (splits st) 0) + (last (splits st) 0 - start)) by lia.
           rewrite !inject_Z_plus. change (inject_Z 1) with 1%Q. lra.
      * repeat split; cbn [splits in_gap gap_start]; try assumption. discriminate.
    + repeat split; try assumption. intros Hin. specialize (Hg Hin). lia.
Qed.

Lemma gap_loop_invariant (start end_ : Z) (gaps : list bool) (k : nat) (st : gap_state) :
  0 <= end_ - start ->
  gap_invariant start end_ k st ->
  gap_invariant start end_ (k + length gaps)
    (fold_left (gap_step start end_)
               (combine (map Z.of_nat (seq k (length gaps))) gaps) st).
Proof.
  intros HL. revert k st. induction gaps as [| g gaps IH]; intros k st Hinv.
  - cbn. now rewrite Nat.add_0_r.
  - cbn [length seq map combine fold_left].
    replace (k + S (length gaps))%nat with (S k + length gaps)%nat by lia.
    apply IH. now apply gap_step_invariant.
Qed.

Lemma find_gaps_sorted (gaps : list bool) (start end_ : Z) :
  0 < end_ - start -> zlen gaps <= end_ - start ->
  StronglySorted Z.lt (_find_gaps gaps start end_) /\
  zlen (_find_gaps gaps start end_) <= 21 /\
  Forall (fun s => start <= s <= end_) (_find_gaps gaps start end_).
Proof.
  intros HL Hn. unfold _find_gaps, enumerate.
  assert (gap_invariant start end_ 0 (mk_gap_state [start] false 0)) as H0.
  { repeat split; cbn [splits in_gap gap_start].
    - now exists [].
    - repeat constructor.
    - constructor; [lia | constructor].
    - discriminate.
    - unfold zlen. cbn. rewrite Z.sub_diag. change (inject_Z 0) with 0%Q. lra. }
  pose proof (gap_loop_invariant start end_ gaps 0 _ ltac:(lia) H0) as Hinv.
  cbn [Nat.add] in Hinv.
  set (st := fold_left _ _ _) in *.
  destruct Hinv as (Hhd & Hs & Hb & _ & Hc).
  assert (forall s, In s (splits st) -> s < end_) as Hlt.
  { intros s Hin. rewrite Forall_forall in Hb. specialize (Hb s Hin).
    unfold zlen in Hn. lia. }
  assert (StronglySorted Z.lt (splits st ++ [end_])) as Hsorted
      by (apply sorted_snoc; assumption).
  split; [exact Hsorted |]. split.
  - rewrite zlen_app. replace (zlen [end_]) with 1 by reflexivity.
    assert (last (splits st) 0 < end_) as Hlast.
    { apply Hlt. destruct Hhd as [mid Hmid]. rewrite Hmid.
      destruct mid as [| m mid']; [now left |].
      change (last (start :: m :: mid') 0) with (last (m :: mid') 0).
      right. destruct (@exists_last Z (m :: mid') ltac:(discriminate)) as [l' [x Hx]].
      rewrite Hx, last_last. apply in_or_app. right. now left. }
    assert (0 < inject_Z (end_ - start))%Q as HLq
        by (change 0%Q with (inject_Z 0); rewrite <- Zlt_Qlt; lia).
    assert (Qlt (inject_Z (last (splits st) 0 - start)) (inject_Z (end_ - start))) as Hq
        by (rewrite <- Zlt_Qlt; lia).
    assert (Qlt (inject_Z (zlen (splits st) - 1)) 20) as Hcount by nra.
    change 20%Q with (inject_Z 20) in Hcount. rewrite <- Zlt_Qlt in Hcount. lia.
  - destruct Hhd as [mid Hmid]. rewrite Hmid in Hsorted |- *.
    cbn [app] in Hsorted |- *. inversion Hsorted as [| ? ? Hs' Hall]; subst.
    constructor; [lia |].
    rewrite Forall_forall in Hall |- *. intros s Hin.
    split; [specialize (Hall s Hin); lia |].
    apply in_app_or in Hin. destruct Hin as [Hin | [<- | []]]; [| lia].
    assert (s < end_) by (apply Hlt; rewrite Hmid; now right). lia.
Qed.

(** X5: for a non-empty bounding-box span that the gap flags cover,
    [_find_gaps] returns strictly increasing split coordinates, all between
    [start] and [end], and never more than 21 of them. *)
Theorem find_gaps_strictly_increasing (gaps : list bool) (start end_ : Z) :
  0 < end_ - start -> zlen gaps = end_ - start ->
  StronglySorted Z.lt (_find_gaps gaps start end_) /\
  zlen (_find_gaps gaps start end_) <= 21 /\
  Forall (fun s => start <= s <= end_) (_find_gaps gaps start end_).
Proof. intros HL Hn. apply find_gaps_sorted; lia. Qed.

Lemma find_gaps_strictly_increasing_witness :
  let gaps := [false; false; true; true; false; false; false; true; false; false] in
  _find_gaps gaps 3 13 = [3; 6; 10; 13] /\
  StronglySorted Z.lt (_find_gaps gaps 3 13) /\
  zlen (_find_gaps gaps 3 13) <= 21 /\
  Forall (fun s => 3 <= s <= 13) (_find_gaps gaps 3 13).
Proof.
  split; [vm_compute; reflexivity |].
  apply (find_gaps_strictly_increasing
           [false; false; true; true; false; false; false; true; false; false] 3 13);
    vm_compute; reflexivity.
Defined.

(** ** The bounding box of the foreground *)

Lemma first_true_spec (l : list bool) (i : Z) :
  Np.first_true l = Some i ->
  exists k, i = Z.of_nat k /\ (k < length l)%nat /\ nth k l false = true /\
            forall j, nth j l false = true -> (k <= j)%nat.
Proof.
  revert i. induction l as [| b l IH]; intros i; cbn [Np.first_true]; [discriminate |].
  destruct b.
  - intros H. injection H as <-. exists 0%nat. repeat split; cbn; try lia.
  - destruct (Np.first_true l) as [i' |]; [| discriminate]. cbn [option_map].
    intros H. injection H as <-. destruct (IH i' eq_refl) as (k & -> & Hk & Hn & Hmin).
    exists (S k). repeat split; cbn [length nth]; try lia; [exact Hn |].
    intros [| j] Hj; [discriminate |]. cbn [nth] in Hj. specialize (Hmin j Hj). lia.
Qed.

Lemma any_first_true (l : list bool) :
  Np.any l = true -> exists i, Np.first_true l = Some i.
Proof.
  induction l as [| b l IH]; cbn [Np.any existsb Np.first_true]; [discriminate |].
  destruct b; [intros _; now eexists |]. cbn [orb]. intros H.
  destruct (IH H) as [i ->]. now eexists.
Qed.

Lemma any_rev (l : list bool) : Np.any (rev l) = Np.any l.
Proof.
  apply eq_true_iff_eq. rewrite !any_true_iff. split; intros H; [now apply in_rev |].
  now apply in_rev in H.
Qed.

Lemma bounding_interval (l : list bool) :
  Np.any l = true ->
  0 <= Np.argmax_bool l < zlen l - Np.argmax_bool (rev l) /\
  zlen l - Np.argmax_bool (rev l) <= zlen l.
Proof.
  intros Hany. unfold Np.argmax_bool.
  destruct (any_first_true l Hany) as [i Hi].
  destruct (any_first_true (rev l)) as [i' Hi']; [now rewrite any_rev |].
  rewrite Hi, Hi'.
  destruct (first_true_spec _ _ Hi) as (k & -> & Hk & _ & Hmin).
  destruct (first_true_spec _ _ Hi') as (k' & -> & Hk' & Hn' & _).
  rewrite length_rev in Hk'. rewrite rev_nth in Hn' by exact Hk'.
  specialize (Hmin _ Hn'). unfold zlen. lia.
Qed.

Lemma zlen_slice {A : Type} (a b : Z) (l : list A) :
  0 <= a <= b -> b <= zlen l -> zlen (Np.slice a b l) = b - a.
Proof.
  intros Hab Hb. unfold Np.slice, Np.clip_index.
  assert ((a <? 0) = false) as -> by (apply Z.ltb_ge; lia).
  assert ((b <? 0) = false) as -> by (apply Z.ltb_ge; lia).
  unfold zlen in *. rewrite length_firstn, length_skipn. lia.
Qed.

Lemma zlen_foreground (img : image) :
  zlen (foreground_of img) = shape0 img /\ zlen (hd [] (foreground_of img)) = shape1 img.
Proof.
  unfold foreground_of, to_gray, shape0, shape1. cbv zeta. rewrite !zlen_map.
  split; [reflexivity |]. destruct img as [| r img']; [reflexivity |].
  cbn [map hd]. now rewrite !zlen_map.
Qed.

Lemma zlen_columns {A : Type} (d : A) (m : list (list A)) :
  zlen (columns d m) = zlen (hd [] m).
Proof. unfold columns, zlen. now rewrite length_map, length_seq. Qed.

Lemma gap_splits_spec (fg : list (list bool)) :
  rectangular fg -> no_foreground fg = false ->
  StronglySorted Z.lt (fst (gap_splits fg)) /\
  StronglySorted Z.lt (snd (gap_splits fg)) /\
  Forall (fun s => 0 <= s <= zlen fg) (fst (gap_splits fg)) /\
  Forall (fun s => 0 <= s <= zlen (hd [] fg)) (snd (gap_splits fg)) /\
  zlen (fst (gap_splits fg)) <= 21 /\ zlen (snd (gap_splits fg)) <= 21.
Proof.
  intros Hrect Hfg. unfold no_foreground in Hfg. apply orb_false_iff in Hfg.
  destruct Hfg as [Hr Hc]. apply negb_false_iff in Hr, Hc.
  pose proof (bounding_interval _ Hr) as [Hr1 Hr2].
  pose proof (bounding_interval _ Hc) as [Hc1 Hc2].
  assert (zlen (rows_with_fg fg) = zlen fg) as Hlr by (unfold rows_with_fg; apply zlen_map).
  assert (zlen (cols_with_fg fg) = zlen (hd [] fg)) as Hlc
      by (unfold cols_with_fg; rewrite zlen_map; apply zlen_columns).
  unfold gap_splits. cbv zeta. cbn [fst snd].
  set (rs := Np.argmax_bool (rows_with_fg fg)) in *.
  set (re := zlen (rows_with_fg fg) - Np.argmax_bool (rev (rows_with_fg fg))) in *.
  set (cs := Np.argmax_bool (cols_with_fg fg)) in *.
  set (ce := zlen (cols_with_fg fg) - Np.argmax_bool (rev (cols_with_fg fg))) in *.
  set (region := Np.slice2 rs re cs ce fg).
  assert (zlen region = re - rs) as Hreg.
  { unfold region, Np.slice2. rewrite zlen_map. apply zlen_slice; lia. }
  assert (zlen (hd [] region) = ce - cs) as Hhd.
  { unfold region, Np.slice2.
    destruct (Np.slice rs re fg) as [| r0 rest] eqn:Es.
    - exfalso. unfold region, Np.slice2 in Hreg. rewrite Es in Hreg.
      unfold zlen in Hreg. simpl in Hreg. lia.
    - cbn [map hd]. apply zlen_slice; [lia |].
      assert (In r0 fg) as Hin by (apply (slice_incl rs re); rewrite Es; now left).
      unfold rectangular in Hrect. rewrite Forall_forall in Hrect.
      unfold zlen. rewrite (Hrect r0 Hin). fold (zlen (hd [] fg)). lia. }
  match goal with |- context [_find_gaps ?g rs re] =>
    destruct (find_gaps_sorted g rs re) as (Hs1 & Hn1 & Hb1);
      [lia | rewrite !zlen_map; lia |] end.
  match goal with |- context [_find_gaps ?g cs ce] =>
    destruct (find_gaps_sorted g cs ce) as (Hs2 & Hn2 & Hb2);
      [lia | rewrite !zlen_map, zlen_columns; lia |] end.
  split; [exact Hs1 |]. split; [exact Hs2 |].
  split; [eapply Forall_impl; [| exact Hb1]; cbv beta; intros; lia |].
  split; [eapply Forall_impl; [| exact Hb2]; cbv beta; intros; lia |].
  split; assumption.
Qed.

Lemma sorted_nth_lt (l : list Z) (i j : nat) :
  StronglySorted Z.lt l -> (i < j < length l)%nat -> nth i l 0 < nth j l 0.
Proof.
  intros Hs. revert i j. induction Hs as [| a l Hs IH Hall]; intros i j Hij.
  - simpl in Hij. lia.
  - destruct j as [| j]; [lia |]. cbn [nth length] in *.
    destruct i as [| i].
    + rewrite Forall_forall in Hall. apply Hall, nth_In. lia.
    + apply IH. lia.
Qed.

Lemma gap_cells_inside (hs vs : list Z) (H W : Z) (cell : rect) :
  StronglySorted Z.lt hs -> StronglySorted Z.lt vs ->
  Forall (fun s => 0 <= s <= H) hs -> Forall (fun s => 0 <= s <= W) vs ->
  In cell (gap_cells hs vs (zlen hs - 1) (zlen vs - 1)) ->
  let '(x, y, w, h) := cell in
  0 <= x /\ 0 <= y /\ 0 < w /\ 0 < h /\ x + w <= W /\ y + h <= H.
Proof.
  intros Hsh Hsv Hbh Hbv Hin. unfold gap_cells in Hin.
  apply in_flat_map in Hin. destruct Hin as [i [Hi Hin]].
  apply in_map_iff in Hin. destruct Hin as [j [<- Hj]].
  apply in_range_iff in Hi, Hj. unfold znth, zlen in *.
  rewrite Forall_forall in Hbh, Hbv.
  assert (forall k, 0 <= k < Z.of_nat (length hs) -> 0 <= nth (Z.to_nat k) hs 0 <= H)
    as Hh by (intros k Hk; apply Hbh, nth_In; lia).
  assert (forall k, 0 <= k < Z.of_nat (length vs) -> 0 <= nth (Z.to_nat k) vs 0 <= W)
    as Hv by (intros k Hk; apply Hbv, nth_In; lia).
  pose proof (sorted_nth_lt hs (Z.to_nat i) (Z.to_nat (i + 1)) Hsh ltac:(lia)).
  pose proof (sorted_nth_lt vs (Z.to_nat j) (Z.to_nat (j + 1)) Hsv ltac:(lia)).
  pose proof (Hh i ltac:(lia)). pose proof (Hh (i + 1) ltac:(lia)).
  pose proof (Hv j ltac:(lia)). pose proof (Hv (j + 1) ltac:(lia)).
  repeat split; lia.
Qed.

Lemma gap_grid_inside (img : image) (rows cols : Z) (cells : list rect) :
  well_formed img -> no_foreground (foreground_of img) = false ->
  gap_grid (foreground_of img) = (rows, cols, cells) ->
  rows <= 20 /\ cols <= 20 /\ forall cell, In cell cells -> cell_inside img cell.
Proof.
  intros Hwf Hfg Hg.
  destruct (gap_splits_spec _ (foreground_rectangular img Hwf) Hfg)
    as (Hs1 & Hs2 & Hb1 & Hb2 & Hn1 & Hn2).
  destruct (zlen_foreground img) as [Hz0 Hz1]. rewrite Hz0 in Hb1. rewrite Hz1 in Hb2.
  unfold gap_grid in Hg. destruct (gap_splits (foreground_of img)) as [hs vs].
  cbn [fst snd] in *. inversion Hg; subst.
  split; [lia |]. split; [lia |].
  intros [[[x y] w] h] Hin.
  exact (gap_cells_inside hs vs (shape0 img) (shape1 img) _ Hs1 Hs2 Hb1 Hb2 Hin).
Qed.

(** X6: on a well-formed image with foreground, the gap-based strategy
    returns at most 20 rows and 20 columns, and every cell it returns has a
    positive width and height and lies inside the image. *)
Theorem gap_grid_cells_inside (sqrtf : Q -> Q) (img : image) (rows cols : Z)
        (cells : list rect) :
  well_formed img ->
  no_foreground (foreground_of img) = false ->
  _detect_grid_simple sqrtf img = Some (rows, cols, cells) ->
  rows <= 20 /\ cols <= 20 /\ forall cell, In cell cells -> cell_inside img cell.
Proof.
  intros Hwf Hfg. rewrite detect_grid_cases, Hfg.
  remember (gap_grid (foreground_of img)) as g eqn:Hg.
  intros H. injection H as H. rewrite Hg in H. now apply gap_grid_inside.
Qed.

Lemma grid3_well_formed : well_formed grid3.
Proof.
  unfold well_formed. split; [reflexivity |]. split; [reflexivity |].
  vm_compute. repeat constructor.
Qed.

Lemma gap_grid_cells_inside_witness :
  _detect_grid_simple sqrt_fix grid3 =
    Some (3, 3, [(1, 1, 4, 4); (5, 1, 5, 4); (10, 1, 5, 4);
                 (1, 5, 4, 5); (5, 5, 5, 5); (10, 5, 5, 5);
                 (1, 10, 4, 5); (5, 10, 5, 5); (10, 10, 5, 5)]) /\
  3 <= 20 /\ 3 <= 20 /\
  forall cell,
    In cell [(1, 1, 4, 4); (5, 1, 5, 4); (10, 1, 5, 4);
             (1, 5, 4, 5); (5, 5, 5, 5); (10, 5, 5, 5);
             (1, 10, 4, 5); (5, 10, 5, 5); (10, 10, 5, 5)] ->
    cell_inside grid3 cell.
Proof.
  assert (no_foreground (foreground_of grid3) = false) as Hfg by (vm_compute; reflexivity).
  assert (_detect_grid_simple sqrt_fix grid3 =
          Some (3, 3, [(1, 1, 4, 4); (5, 1, 5, 4); (10, 1, 5, 4);
                       (1, 5, 4, 5); (5, 5, 5, 5); (10, 5, 5, 5);
                       (1, 10, 4, 5); (5, 10, 5, 5); (10, 10, 5, 5)])) as H
      by (vm_compute; reflexivity).
  split; [exact H |].
  exact (gap_grid_cells_inside sqrt_fix grid3 3 3 _ grid3_well_formed Hfg H).
Defined.

(** ** The sampler on detected cells *)

Lemma detect_cells_inside (sqrtf : Q -> Q) (img : image) (rows cols : Z) (cells : list rect) :
  well_formed img ->
  _detect_grid_simple sqrtf img = Some (rows, cols, cells) ->
  forall cell, In cell cells -> cell_inside img cell.
Proof.
  intros Hwf. rewrite detect_grid_cases.
  destruct (no_foreground (foreground_of img)) eqn:Hfg.
  - intros H cell Hin. destruct (fallback_grid_shape _ _ _ _ _ H) as [Hc ->].
    apply considered_candidates_spec in Hc. destruct Hc as (Hr & Hc & _ & Hch & Hcw).
    now apply (uniform_cells_inside img rows cols cell); try lia.
  - remember (gap_grid (foreground_of img)) as g eqn:Hg.
    intros H. injection H as H. rewrite Hg in H.
    now apply (gap_grid_inside img rows cols cells Hwf Hfg) in H.
Qed.

Lemma half_at_least_two (s : Z) : 5 <= s -> 2 <= s / 2.
Proof. intros H. apply Z.div_le_lower_bound; lia. Qed.

Lemma half_inside (h : Z) : 0 < h -> 0 <= h / 2 < h.
Proof.
  intros H. split; [apply Z.div_pos; lia | apply Z.div_lt_upper_bound; lia].
Qed.

Lemma sample_region_nonempty (img : image) (cell : rect) :
  well_formed img -> cell_inside img cell -> 0 < region_size (sample_region img cell).
Proof.
  intros (Hh & Hw & Hrows) Hin. destruct cell as [[[x y] w] h].
  unfold cell_inside in Hin. destruct Hin as (Hx & Hy & Hw0 & Hh0 & Hxw & Hyh).
  unfold sample_region, sample_window. rewrite !py_int_fifth.
  set (sw := Z.max 5 (w - 2 * Z.quot w 5)). set (sh := Z.max 5 (h - 2 * Z.quot h 5)).
  pose proof (half_at_least_two sw ltac:(unfold sw; lia)) as Hsw.
  pose proof (half_at_least_two sh ltac:(unfold sh; lia)) as Hsh.
  pose proof (half_inside w Hw0) as Hcw. pose proof (half_inside h Hh0) as Hch.
  set (y_lo := Z.max 0 (y + h / 2 - sh / 2)).
  set (y_hi := Z.min (shape0 img) (y + h / 2 + sh / 2)).
  set (x_lo := Z.max 0 (x + w / 2 - sw / 2)).
  set (x_hi := Z.min (shape1 img) (x + w / 2 + sw / 2)).
  assert (0 <= y_lo < y_hi /\ y_hi <= shape0 img) as Hyb by (unfold y_lo, y_hi; lia).
  assert (0 <= x_lo < x_hi /\ x_hi <= shape1 img) as Hxb by (unfold x_lo, x_hi; lia).
  unfold Np.slice2.
  assert (zlen (Np.slice y_lo y_hi img) = y_hi - y_lo) as Hlen
      by (apply zlen_slice; unfold shape0 in *; lia).
  destruct (Np.slice y_lo y_hi img) as [| r0 rest] eqn:Es;
    [unfold zlen in Hlen; simpl in Hlen; lia |].
  assert (In r0 img) as Hr0 by (apply (slice_incl y_lo y_hi); rewrite Es; now left).
  rewrite Forall_forall in Hrows. specialize (Hrows r0 Hr0).
  assert (zlen (Np.slice x_lo x_hi r0) = x_hi - x_lo) as Hrow
      by (apply zlen_slice; lia).
  unfold region_size. cbn [map concat]. rewrite zlen_app.
  pose proof (zlen_nonneg (concat (map (Np.slice x_lo x_hi) rest))). lia.
Qed.

(** X7: on a well-formed image every cell of a detected grid has a non-empty
    sampling window, so its colour is the mean of that window and the grey
    [(128, 128, 128)] fallback is never used. *)
Theorem detected_cells_sampled_from_pixels (sqrtf : Q -> Q) (img : image)
        (rows cols : Z) (cells : list rect) :
  well_formed img ->
  _detect_grid_simple sqrtf img = Some (rows, cols, cells) ->
  forall cell, In cell cells ->
    0 < region_size (sample_region img cell) /\
    sample_color img cell = mean_color (sample_region img cell).
Proof.
  intros Hwf Hd cell Hin.
  pose proof (detect_cells_inside sqrtf img rows cols cells Hwf Hd cell Hin) as Hins.
  pose proof (sample_region_nonempty img cell Hwf Hins) as Hpos.
  split; [exact Hpos |]. unfold sample_color. apply Z.ltb_lt in Hpos. now rewrite Hpos.
Qed.

Lemma detected_cells_sampled_from_pixels_witness :
  _detect_grid_simple sqrt_fix blob = Some (1, 1, [(3, 3, 4, 4)]) /\
  forall cell, In cell [(3, 3, 4, 4)] ->
    0 < region_size (sample_region blob cell) /\
    sample_color blob cell = mean_color (sample_region blob cell).
Proof.
  assert (_detect_grid_simple sqrt_fix blob = Some (1, 1, [(3, 3, 4, 4)])) as H
      by (vm_compute; reflexivity).
  split; [exact H |].
  exact (detected_cells_sampled_from_pixels sqrt_fix blob 1 1 _ blob_well_formed H).
Defined.

(** ** Reported colours are 8-bit values *)

Lemma sum_bounds (a b : Q) (l : list Q) :
  (forall x, In x l -> (a <= x <= b)%Q) ->
  (inject_Z (zlen l) * a <= Np.sum l <= inject_Z (zlen l) * b)%Q.
Proof.
  induction l as [| x t IH]; intros H.
  - unfold zlen, Np.sum. cbn [length fold_right Z.of_nat].
    change (inject_Z 0) with 0%Q. lra.
  - rewrite inject_zlen_cons. cbn [Np.sum fold_right]. fold (Np.sum t).
    assert (a <= x <= b)%Q by (apply H; now left).
    assert (inject_Z (zlen t) * a <= Np.sum t <= inject_Z (zlen t) * b)%Q
      by (apply IH; intros y Hy; apply H; now right).
    lra.
Qed.

Lemma mean_bounds (a b : Q) (l : list Q) :
  l <> [] -> (forall x, In x l -> (a <= x <= b)%Q) -> (a <= Np.mean l <= b)%Q.
Proof.
  intros Hne H. pose proof (inject_zlen_pos l Hne) as Hpos.
  destruct (sum_bounds a b l H) as [Hlo Hhi]. unfold Np.mean.
  split; [apply Qle_shift_div_l | apply Qle_shift_div_r]; try assumption; lra.
Qed.

Lemma channel_bounds (z : Z) : 0 <= z <= 255 -> (0 <= inject_Z z <= 255)%Q.
Proof.
  intros [H0 H1]. change 0%Q with (inject_Z 0). change 255%Q with (inject_Z 255).
  rewrite <- !Zle_Qle. lia.
Qed.

Lemma py_int_bounds (q : Q) : (0 <= q <= 255)%Q -> 0 <= py_int q <= 255.
Proof.
  intros [H0 H1]. unfold py_int. unfold Qle in H0, H1. cbn in H0, H1.
  rewrite Z.mul_1_r in H0, H1.
  rewrite Z.quot_div_nonneg by lia. split.
  - apply Z.div_pos; lia.
  - apply Z.div_le_upper_bound; lia.
Qed.

Lemma sample_color_bounds (img : image) (cell : rect) :
  valid_image img ->
  (0 <= cr (sample_color img cell) <= 255)%Q /\
  (0 <= cg (sample_color img cell) <= 255)%Q /\
  (0 <= cb (sample_color img cell) <= 255)%Q.
Proof.
  intros Hvalid. unfold sample_color.
  destruct (0 <? region_size (sample_region img cell)) eqn:E;
    [| cbn; repeat split; discriminate].
  apply Z.ltb_lt in E. set (region := sample_region img cell) in *.
  assert (forall p, In p (concat region) -> valid_pixel p) as Hpx.
  { intros p Hp. apply in_concat in Hp. destruct Hp as [row [Hrow Hp]].
    unfold region, sample_region in Hrow. destruct (sample_window cell) as [[[a b] c] d].
    unfold Np.slice2 in Hrow. apply in_map_iff in Hrow. destruct Hrow as [row' [<- Hrow']].
    apply slice_incl in Hrow', Hp. exact (Hvalid row' Hrow' p Hp). }
  assert (concat region <> []) as Hne.
  { intros H. unfold region_size in E. rewrite H in E. unfold zlen in E. simpl in E. lia. }
  unfold mean_color. cbv zeta. cbn [cr cg cb fst snd].
  split; [| split];
    (apply mean_bounds;
     [intros H; apply map_eq_nil in H; contradiction
     | intros v Hv; apply in_map_iff in Hv; destruct Hv as [[[r g] b] [<- Hq]];
       specialize (Hpx _ Hq); unfold valid_pixel in Hpx;
       destruct Hpx as (Hr & Hg & Hb); apply channel_bounds; assumption]).
Qed.

Lemma entry_of_rgb_in_range (img : image) (cols : Z) (cells : list rect) (idx : Z) :
  valid_image img ->
  rgb_in_range (entry_of cols (map (sample_color img) cells) idx).
Proof.
  intros Hvalid. unfold rgb_in_range, entry_of, cnth, znth. cbv zeta. cbn [rgb].
  destruct (nth_in_or_default (Z.to_nat idx) (map (sample_color img) cells) black)
    as [Hin | Hd].
  - apply in_map_iff in Hin. destruct Hin as [cell [Heq _]]. rewrite <- Heq.
    destruct (sample_color_bounds img cell Hvalid) as (Hr & Hg & Hb).
    split; [| split]; apply py_int_bounds; assumption.
  - rewrite Hd. vm_compute. repeat split; discriminate.
Qed.

(** X8: on an image whose channels are 8-bit values, every colour that
    [analyze] reports, for an outlier or in the debug list, has its three
    components between 0 and 255. *)
Theorem analyze_colours_in_range (sqrtf : Q -> Q) (img : image) (sensitivity : Q)
        (debug : bool) (a : analysis) :
  valid_image img ->
  analyze sqrtf img sensitivity debug = Some a ->
  Forall rgb_in_range (results a) /\
  (forall all_colors, debug_colors a = Some all_colors -> Forall rgb_in_range all_colors).
Proof.
  intros Hvalid. unfold analyze.
  destruct (_detect_grid_simple sqrtf img) as [[[rows cols] cells] |]; [| discriminate].
  intros H. injection H as <-. cbn [results debug_colors]. split.
  - apply Forall_forall. intros e He. apply in_map_iff in He. destruct He as [idx [<- _]].
    now apply entry_of_rgb_in_range.
  - intros all_colors Hall. destruct debug; [| discriminate]. injection Hall as <-.
    apply Forall_forall. intros e He. apply in_map_iff in He. destruct He as [ic [<- _]].
    now apply entry_of_rgb_in_range.
Qed.

Lemma grid3_valid : valid_image grid3.
Proof.
  intros row Hrow p Hp. unfold grid3 in Hrow. cbv zeta in Hrow.
  apply in_map_iff in Hrow. destruct Hrow as [i [<- _]].
  apply in_map_iff in Hp. destruct Hp as [j [<- _]].
  repeat match goal with |- context [if ?c then _ else _] => destruct c end;
    unfold valid_pixel; lia.
Qed.

Lemma analyze_colours_in_range_witness :
  analyze sqrt_fix grid3 (15 # 10) true = Some grid3_analysis /\
  Forall rgb_in_range (results grid3_analysis) /\
  (forall all_colors,
      debug_colors grid3_analysis = Some all_colors -> Forall rgb_in_range all_colors).
Proof.
  assert (analyze sqrt_fix grid3 (15 # 10) true = Some grid3_analysis) as H
      by (vm_compute; reflexivity).
  split; [exact H |].
  exact (analyze_colours_in_range sqrt_fix grid3 (15 # 10) true grid3_analysis grid3_valid H).
Defined.

(** ** The two clusters partition the cells *)

(** X9: the two clusters the two-means loop ends with split the cell indices
    between them: every index below the number of cells lies in exactly one
    of the two clusters, and the clusters hold nothing else. *)
Theorem final_clusters_partition (sqrtf : Q -> Q) (cell_colors : list color) :
  let cluster1 := fst (final_clusters sqrtf cell_colors) in
  let cluster2 := snd (final_clusters sqrtf cell_colors) in
  (forall i, 0 <= i < zlen cell_colors ->
             (In i cluster1 /\ ~ In i cluster2) \/ (~ In i cluster1 /\ In i cluster2)) /\
  (forall i, In i cluster1 \/ In i cluster2 -> 0 <= i < zlen cell_colors).
Proof.
  intros cluster1 cluster2.
  pose proof (final_clusters_complementary sqrtf cell_colors) as Hc.
  fold cluster1 cluster2 in Hc.
  destruct (complementary_ascending _ _ _ Hc) as [[_ H1] [_ H2]].
  rewrite Forall_forall in H1, H2. split.
  - intros i Hi. destruct Hc as [m [Hlen [Hc1 Hc2]]].
    assert (0 <= i < zlen m) as Him by (unfold zlen in *; lia).
    destruct (nth (Z.to_nat i) m false) eqn:E.
    + left. assert (In i cluster1) as Hin by (rewrite Hc1; apply where_spec; auto).
      split; [exact Hin |]. intros Hin2.
      apply (complementary_disjoint (length cell_colors) cluster1 cluster2 i); auto.
      exists m. auto.
    + right. assert (In i cluster2) as Hin.
      { rewrite Hc2. apply where_spec. rewrite zlen_map. split; [exact Him |].
        rewrite (nth_map_bool negb m false) by (unfold zlen in Him; lia). now rewrite E. }
      split; [| exact Hin]. intros Hin1.
      apply (complementary_disjoint (length cell_colors) cluster1 cluster2 i); auto.
      exists m. auto.
  - intros i [Hi | Hi]; [now apply H1 | now apply H2].
Qed.

(** ** Outliers among the debug entries, and single-cell grids *)

(** X10: in debug mode every reported outlier is also an entry of the debug
    list, with the same row, column and colour. *)
Theorem analyze_outliers_among_debug (sqrtf : Q -> Q) (img : image) (sensitivity : Q)
        (a : analysis) :
  analyze sqrtf img sensitivity true = Some a ->
  exists all_colors,
    debug_colors a = Some all_colors /\ incl (results a) all_colors.
Proof.
  unfold analyze.
  destruct (_detect_grid_simple sqrtf img) as [[[rows cols] cells] |]; [| discriminate].
  intros H. injection H as <-. cbn [results debug_colors].
  eexists. split; [reflexivity |].
  set (cell_colors := map (sample_color img) cells).
  intros e He. apply in_map_iff in He. destruct He as [idx [<- Hidx]].
  destruct (find_different_ascending sqrtf cell_colors sensitivity) as [_ Hrange].
  rewrite Forall_forall in Hrange. specialize (Hrange idx Hidx).
  assert (map (fun ic : Z * color => entry_of cols cell_colors (fst ic)) (enumerate cell_colors)
          = map (entry_of cols cell_colors) (range (zlen cell_colors))) as ->
      by (rewrite <- map_fst_enumerate, map_map; reflexivity).
  apply in_map. now apply in_range_iff.
Qed.

Lemma analyze_outliers_among_debug_witness :
  analyze sqrt_fix grid3 (15 # 10) true = Some grid3_analysis /\
  exists all_colors,
    debug_colors grid3_analysis = Some all_colors /\
    incl (results grid3_analysis) all_colors.
Proof.
  assert (analyze sqrt_fix grid3 (15 # 10) true = Some grid3_analysis) as H
      by (vm_compute; reflexivity).
  split; [exact H |].
  exact (analyze_outliers_among_debug sqrt_fix grid3 (15 # 10) grid3_analysis H).
Defined.

(** X11: when the detected grid has a single cell, [analyze] succeeds
    without reporting any outlier. *)
Theorem analyze_single_cell_no_outlier (sqrtf : Q -> Q) (img : image) (sensitivity : Q)
        (debug : bool) (a : analysis) :
  analyze sqrtf img sensitivity debug = Some a ->
  fst (grid_size a) * snd (grid_size a) < 2 ->
  results a = [].
Proof.
  unfold analyze.
  destruct (_detect_grid_simple sqrtf img) as [[[rows cols] cells] |] eqn:E; [| discriminate].
  intros H. injection H as <-. cbn [grid_size results fst snd]. intros Hn.
  destruct (detect_grid_shape _ _ _ _ _ E) as (_ & _ & Hlen).
  unfold _find_different.
  assert ((zlen (map (sample_color img) cells) <? 2) = true) as ->
      by (apply Z.ltb_lt; rewrite zlen_map; lia).
  reflexivity.
Qed.

Lemma analyze_single_cell_no_outlier_witness :
  analyze sqrt_fix blob (15 # 10) false = Some (mk_analysis (1, 1) [] None) /\
  results (mk_analysis (1, 1) [] None) = [].
Proof.
  assert (analyze sqrt_fix blob (15 # 10) false = Some (mk_analysis (1, 1) [] None)) as H
      by (vm_compute; reflexivity).
  split; [exact H |].
  apply (analyze_single_cell_no_outlier sqrt_fix blob (15 # 10) false _ H).
  vm_compute. reflexivity.
Defined.

(** ** The debug panel *)

Lemma slice_head_firstn {A : Type} (l : list A) :
  Np.slice 0 20 l = firstn 20 l.
Proof.
  unfold Np.slice, Np.clip_index. cbn [Z.ltb Z.compare].
  assert (Z.min 0 (zlen l) = 0) as -> by (pose proof (zlen_nonneg l); lia).
  cbn [skipn Z.to_nat]. rewrite Z.sub_0_r.
  destruct (Z.le_ge_cases 20 (zlen l)) as [H | H].
  - rewrite Z.min_l by lia. reflexivity.
  - rewrite Z.min_r by lia. unfold zlen. rewrite Nat2Z.id.
    rewrite firstn_all. symmetry. apply firstn_all2. unfold zlen in H. lia.
Qed.

Lemma firstn_seq_min (k s n : nat) : firstn k (seq s n) = seq s (Nat.min k n).
Proof.
  revert s n. induction k as [| k IH]; intros s [| n]; cbn; try reflexivity.
  now rewrite IH.
Qed.

Lemma firstn_range (k : nat) (n : Z) :
  0 <= n -> firstn k (range n) = range (Z.min (Z.of_nat k) n).
Proof.
  intros Hn. unfold range. rewrite firstn_map, firstn_seq_min. do 2 f_equal. lia.
Qed.

Lemma same_cell_eqb (cols : Z) (cc : list color) (idx k : Z) :
  cols <> 0 ->
  (row (entry_of cols cc idx) =? row (entry_of cols cc k)) &&
  (col (entry_of cols cc idx) =? col (entry_of cols cc k)) = (k =? idx).
Proof.
  intros Hc. unfold entry_of. cbn [row col]. apply eq_true_iff_eq.
  rewrite andb_true_iff, !Z.eqb_eq. split.
  - intros [Hr Hm]. symmetry. apply (index_to_cell_injective cols); [exact Hc |].
    now rewrite Hr, Hm.
  - intros ->. split; reflexivity.
Qed.

Lemma is_marked_spec (cols : Z) (cc : list color) (idxs : list Z) (k : Z) :
  cols <> 0 ->
  MainWindow.is_marked (map (entry_of cols cc) idxs) (entry_of cols cc k) =
  existsb (Z.eqb k) idxs.
Proof.
  intros Hc. unfold MainWindow.is_marked.
  induction idxs as [| idx idxs IH]; cbn [map existsb]; [reflexivity |].
  now rewrite IH, same_cell_eqb.
Qed.

(** X12: in debug mode the result panel of [MainWindow.analyze] shows the
    grid header, one line for each of the first 20 cells in row-major order,
    whose target marker is set exactly when the cell is among the outliers,
    and, when the grid has more than 20 cells, one more line that tells how
    many cells are left out; so it never shows more than 22 lines. *)
Theorem debug_panel_lines (sqrtf : Q -> Q) (img : image) (sensitivity : Q)
        (rows cols : Z) (cells : list rect) :
  _detect_grid_simple sqrtf img = Some (rows, cols, cells) ->
  let cell_colors := map (sample_color img) cells in
  let different_cells := _find_different sqrtf cell_colors sensitivity in
  let lines :=
    MainWindow.LineGridDebug (rows, cols)
    :: map (fun k => MainWindow.LineCell (existsb (Z.eqb k) different_cells)
                                         (entry_of cols cell_colors k))
           (range (Z.min 20 (rows * cols)))
    ++ (if 20 <? rows * cols then [MainWindow.LineMore (rows * cols - 20)] else []) in
  MainWindow.analyze sqrtf (Some img) sensitivity true = Some lines /\
  zlen lines <= 22.
Proof.
  intros Hd cell_colors different_cells lines.
  destruct (detect_grid_shape _ _ _ _ _ Hd) as (Hr & Hc & Hlen).
  assert (zlen cell_colors = rows * cols) as Hcc
      by (unfold cell_colors; now rewrite zlen_map).
  split.
  - unfold MainWindow.analyze, MainWindow.result_lines, analyze. rewrite Hd.
    cbn [debug_colors results grid_size]. fold cell_colors. fold different_cells.
    assert (map (fun ic : Z * color => entry_of cols cell_colors (fst ic)) (enumerate cell_colors)
            = map (entry_of cols cell_colors) (range (rows * cols))) as ->
        by (rewrite <- Hcc, <- map_fst_enumerate, map_map; reflexivity).
    rewrite slice_head_firstn, firstn_map, firstn_range by lia.
    rewrite zlen_map, zlen_range by lia.
    unfold lines. do 3 f_equal. rewrite map_map. apply map_ext. intros k.
    f_equal. apply is_marked_spec. lia.
  - unfold lines, zlen. cbn [length]. rewrite length_app, length_map, length_range.
    destruct (20 <? rows * cols); cbn [length]; lia.
Qed.

Lemma debug_panel_lines_witness :
  let cells := [(1, 1, 4, 4); (5, 1, 5, 4); (10, 1, 5, 4);
                (1, 5, 4, 5); (5, 5, 5, 5); (10, 5, 5, 5);
                (1, 10, 4, 5); (5, 10, 5, 5); (10, 10, 5, 5)] in
  _detect_grid_simple sqrt_fix grid3 = Some (3, 3, cells) /\
  let cell_colors := map (sample_color grid3) cells in
  let different_cells := _find_different sqrt_fix cell_colors (15 # 10) in
  let lines :=
    MainWindow.LineGridDebug (3, 3)
    :: map (fun k => MainWindow.LineCell (existsb (Z.eqb k) different_cells)
                                         (entry_of 3 cell_colors k))
           (range (Z.min 20 (3 * 3)))
    ++ (if 20 <? 3 * 3 then [MainWindow.LineMore (3 * 3 - 20)] else []) in
  MainWindow.analyze sqrt_fix (Some grid3) (15 # 10) true = Some lines /\
  zlen lines <= 22.
Proof.
  intros cells.
  assert (_detect_grid_simple sqrt_fix grid3 = Some (3, 3, cells)) as H
      by (vm_compute; reflexivity).
  split; [exact H |].
  exact (debug_panel_lines sqrt_fix grid3 (15 # 10) 3 3 cells H).
Defined.

Example debug_panel_grid3 :
  MainWindow.analyze sqrt_fix (Some grid3) (15 # 10) true =
    Some [MainWindow.LineGridDebug (3, 3);
          MainWindow.LineCell false (mk_entry 1 1 (200, 50, 50));
          MainWindow.LineCell false (mk_entry 1 2 (213, 101, 101));
          MainWindow.LineCell false (mk_entry 1 3 (213, 101, 101));
          MainWindow.LineCell false (mk_entry 2 1 (213, 101, 101));
          MainWindow.LineCell true (mk_entry 2 2 (139, 224, 139));
          MainWindow.LineCell false (mk_entry 2 3 (224, 139, 139));
          MainWindow.LineCell false (mk_entry 3 1 (213, 101, 101));
          MainWindow.LineCell false (mk_entry 3 2 (224, 139, 139));
          MainWindow.LineCell false (mk_entry 3 3 (224, 139, 139))].
Proof. vm_compute. reflexivity. Qed.

(** ** Round trips through the stored floats *)

Lemma in_range2_iff (a b i : Z) : In i (range2 a b) <-> a <= i < b.
Proof.
  unfold range2. rewrite in_map_iff. split.
  - intros [k [<- Hk]]. apply in_seq in Hk. lia.
  - intros H. exists (Z.to_nat (i - a)). split; [lia |]. apply in_seq. lia.
Qed.

(** X13: a percentage of the DPI dialog (50 to 300) that is stored as a
    scale factor and put back into the dialog comes back unchanged or one
    percent lower; it comes back one lower exactly for the 17 percentages of
    [lossy_percentages], such as 57 and 115. *)
Theorem calibration_round_trip (p : Z) :
  50 <= p <= 300 ->
  CalibrationDialog.set_scale (CalibrationDialog.get_scale p) =
    if existsb (Z.eqb p) lossy_percentages then p - 1 else p.
Proof.
  intros Hp.
  assert (forallb (fun p => CalibrationDialog.set_scale (CalibrationDialog.get_scale p) =?
                            (if existsb (Z.eqb p) lossy_percentages then p - 1 else p))
                  (range2 50 301) = true) as Hall by (vm_compute; reflexivity).
  rewrite forallb_forall in Hall. apply Z.eqb_eq, Hall, in_range2_iff. lia.
Qed.

Lemma calibration_round_trip_witness :
  CalibrationDialog.set_scale (CalibrationDialog.get_scale 115) =
    if existsb (Z.eqb 115) lossy_percentages then 115 - 1 else 115.
Proof. apply (calibration_round_trip 115). lia. Defined.

Example calibration_drift :
  CalibrationDialog.set_scale (CalibrationDialog.get_scale 116) = 115 /\
  CalibrationDialog.set_scale (CalibrationDialog.get_scale 115) = 114 /\
  CalibrationDialog.set_scale (CalibrationDialog.get_scale 114) = 113 /\
  CalibrationDialog.set_scale (CalibrationDialog.get_scale 113) = 112 /\
  CalibrationDialog.set_scale (CalibrationDialog.get_scale 112) = 112.
Proof. repeat split; vm_compute; reflexivity. Qed.

(** X14: every position of the sensitivity slider (5 to 30) is restored
    exactly from the sensitivity it stores. *)
Theorem sensitivity_slider_round_trip (value : Z) :
  5 <= value <= 30 ->
  slider_of_sensitivity (sensitivity_of_slider value) = value.
Proof.
  intros Hv.
  assert (forallb (fun v => slider_of_sensitivity (sensitivity_of_slider v) =? v)
                  (range2 5 31) = true) as Hall by (vm_compute; reflexivity).
  rewrite forallb_forall in Hall. apply Z.eqb_eq, Hall, in_range2_iff. lia.
Qed.

Lemma sensitivity_slider_round_trip_witness :
  slider_of_sensitivity (sensitivity_of_slider 23) = 23.
Proof. apply (sensitivity_slider_round_trip 23). lia. Defined.

(** ** The sampling window and the cell *)

Lemma quot_fifth (w : Z) : 0 <= w -> Z.quot w 5 = w / 5.
Proof. intros H. apply Z.quot_div_nonneg; lia. Qed.

Lemma window_axis (x w : Z) :
  4 <= w ->
  let s := Z.max 5 (w - 2 * Z.quot w 5) in
  x <= x + w / 2 - s / 2 /\ x + w / 2 + s / 2 <= x + w /\
  (7 <= w ->
   x + w / 2 - s / 2 = x + Z.quot w 5 /\ x + w / 2 + s / 2 <= x + w - Z.quot w 5).
Proof.
  intros Hw s. unfold s. rewrite quot_fifth by lia.
  pose proof (Z.div_mod w 5 ltac:(lia)) as H5. pose proof (Z.mod_pos_bound w 5 ltac:(lia)).
  pose proof (Z.div_mod w 2 ltac:(lia)) as H2. pose proof (Z.mod_pos_bound w 2 ltac:(lia)).
  destruct (Z.le_gt_cases 5 (w - 2 * (w / 5))) as [Hbig | Hsmall].
  - rewrite Z.max_r by lia.
    assert ((w - 2 * (w / 5)) / 2 = w / 2 - w / 5) as ->.
    { replace (w - 2 * (w / 5)) with (w + (- (w / 5)) * 2) by lia.
      rewrite Z.div_add by lia. lia. }
    split; [lia |]. split; [lia |]. intros _. split; lia.
  - rewrite Z.max_l by lia. change (5 / 2) with 2.
    split; [lia |]. split; [lia |]. intros H7. lia.
Qed.

(** X15: for a cell at least 4 pixels wide and high the sampling window lies
    inside the cell; for a cell at least 7 pixels wide and high it starts
    exactly one margin ([int(0.2 * w)], [int(0.2 * h)]) inside the cell and
    ends at least one margin before its far edges. *)
Theorem sample_window_inside_cell (x y w h : Z) :
  4 <= w -> 4 <= h ->
  exists y_lo y_hi x_lo x_hi,
    sample_window (x, y, w, h) = (y_lo, y_hi, x_lo, x_hi) /\
    x <= x_lo /\ x_hi <= x + w /\ y <= y_lo /\ y_hi <= y + h /\
    (7 <= w -> x_lo = x + py_int (inject_Z w * (2 # 10)) /\
               x_hi <= x + w - py_int (inject_Z w * (2 # 10))) /\
    (7 <= h -> y_lo = y + py_int (inject_Z h * (2 # 10)) /\
               y_hi <= y + h - py_int (inject_Z h * (2 # 10))).
Proof.
  intros Hw Hh. unfold sample_window. rewrite !py_int_fifth.
  destruct (window_axis x w Hw) as (Hx1 & Hx2 & Hx3).
  destruct (window_axis y h Hh) as (Hy1 & Hy2 & Hy3).
  eexists _, _, _, _. split; [reflexivity |].
  split; [exact Hx1 |]. split; [exact Hx2 |]. split; [exact Hy1 |]. split; [exact Hy2 |].
  split; [exact Hx3 | exact Hy3].
Qed.

Lemma sample_window_inside_cell_witness :
  exists y_lo y_hi x_lo x_hi,
    sample_window (10, 20, 9, 4) = (y_lo, y_hi, x_lo, x_hi) /\
    10 <= x_lo /\ x_hi <= 10 + 9 /\ 20 <= y_lo /\ y_hi <= 20 + 4 /\
    (7 <= 9 -> x_lo = 10 + py_int (inject_Z 9 * (2 # 10)) /\
               x_hi <= 10 + 9 - py_int (inject_Z 9 * (2 # 10))) /\
    (7 <= 4 -> y_lo = 20 + py_int (inject_Z 4 * (2 # 10)) /\
               y_hi <= 20 + 4 - py_int (inject_Z 4 * (2 # 10))).
Proof. apply (sample_window_inside_cell 10 20 9 4); lia. Defined.

(** ** Grids whose cells all look the same *)

Lemma all_equal_check (p : pixel) (m : list (list pixel)) :
  forallb (forallb (pixel_eqb p)) m = true -> all_equal p m.
Proof.
  intros H row Hrow y Hy. rewrite forallb_forall in H.
  pose proof (H row Hrow) as Hr. rewrite forallb_forall in Hr.
  pose proof (Hr y Hy) as Hp. unfold pixel_eqb in Hp.
  apply andb_true_iff in Hp. destruct Hp as [Hp Hb].
  apply andb_true_iff in Hp. destruct Hp as [Hr' Hg].
  apply Z.eqb_eq in Hr', Hg, Hb.
  destruct y as [[yr yg] yb], p as [[pr pg] pb]. cbn [fst snd] in *. congruence.
Qed.

Lemma sample_color_all_equal (img : image) (p : pixel) (cell : rect) :
  all_equal p (sample_region img cell) -> 0 < region_size (sample_region img cell) ->
  (cr (sample_color img cell) == chan_r p)%Q /\
  (cg (sample_color img cell) == chan_g p)%Q /\
  (cb (sample_color img cell) == chan_b p)%Q.
Proof.
  intros Hall Hsize. unfold sample_color. cbv zeta.
  assert ((0 <? region_size (sample_region img cell)) = true) as -> by (apply Z.ltb_lt; lia).
  set (region := sample_region img cell) in *.
  assert (concat region <> []) as Hne.
  { intros H. unfold region_size in Hsize. rewrite H in Hsize. unfold zlen in Hsize.
    simpl in Hsize. lia. }
  assert (forall f : pixel -> Q, (Np.mean (map f (concat region)) == f p)%Q) as Hmean.
  { intros f. apply mean_all_eq.
    - intros H. apply map_eq_nil in H. contradiction.
    - intros y Hy. apply in_map_iff in Hy. destruct Hy as [q [<- Hq]].
      now rewrite (concat_all_equal p region q Hall Hq). }
  unfold mean_color. cbv zeta. cbn [cr cg cb fst snd].
  split; [apply Hmean |]. split; apply Hmean.
Qed.

Lemma sqdiff_same (a b : color) (r g bl : Q) :
  (cr a == r)%Q -> (cg a == g)%Q -> (cb a == bl)%Q ->
  (cr b == r)%Q -> (cg b == g)%Q -> (cb b == bl)%Q ->
  (sqdiff a b == 0)%Q.
Proof.
  intros Ha1 Ha2 Ha3 Hb1 Hb2 Hb3. unfold sqdiff.
  rewrite Ha1, Ha2, Ha3, Hb1, Hb2, Hb3. cbn [Qpower Qpower_positive pow_pos Pos.iter_op].
  ring.
Qed.

(** X16: when the sampling windows of all the cells of the detected grid
    hold one and the same pixel value, [analyze] succeeds and reports no
    different cell, at every positive sensitivity (for a square root that
    maps 0 to 0). *)
Theorem uniform_cells_no_outlier (sqrtf : Q -> Q) (img : image) (p : pixel)
        (sensitivity : Q) (debug : bool) (rows cols : Z) (cells : list rect) :
  (forall q, (q == 0)%Q -> (sqrtf q == 0)%Q) ->
  (0 < sensitivity)%Q ->
  well_formed img ->
  _detect_grid_simple sqrtf img = Some (rows, cols, cells) ->
  (forall cell, In cell cells -> all_equal p (sample_region img cell)) ->
  exists a, analyze sqrtf img sensitivity debug = Some a /\
            grid_size a = (rows, cols) /\ results a = [].
Proof.
  intros Hsqrt Hs Hwf E Hall. unfold analyze. rewrite E. cbv zeta.
  eexists. split; [reflexivity |]. cbn [grid_size results]. split; [reflexivity |].
  set (colors := map (sample_color img) cells).
  assert (forall c, In c colors ->
            (cr c == chan_r p)%Q /\ (cg c == chan_g p)%Q /\ (cb c == chan_b p)%Q) as Hcol.
  { intros c Hc. apply in_map_iff in Hc. destruct Hc as [cell [<- Hcell]].
    apply sample_color_all_equal; [now apply Hall |].
    apply sample_region_nonempty; [exact Hwf |].
    exact (detect_cells_inside sqrtf img rows cols cells Hwf E cell Hcell). }
  assert (_find_different sqrtf colors sensitivity = []) as ->; [| reflexivity].
  unfold _find_different. destruct (zlen colors <? 2) eqn:En; [reflexivity |].
  apply Z.ltb_ge in En.
  assert (forall i, 0 <= i < zlen colors -> In (cnth colors i) colors) as Hnth.
  { intros i Hi. unfold cnth, znth. apply nth_In. unfold zlen in Hi. lia. }
  assert (forall a, In a (avg_distances_of sqrtf colors) -> (a < 10 / sensitivity)%Q) as Hlt.
  { apply avg_distances_lt; [lia |]. intros i j Hi Hj _.
    destruct (Hcol _ (Hnth i Hi)) as (Hi1 & Hi2 & Hi3).
    destruct (Hcol _ (Hnth j Hj)) as (Hj1 & Hj2 & Hj3).
    unfold dist. rewrite (Hsqrt _ (sqdiff_same _ _ _ _ _ Hi1 Hi2 Hi3 Hj1 Hj2 Hj3)).
    apply Qlt_shift_div_l; lra. }
  assert (avg_distances_of sqrtf colors <> []) as Hne.
  { intros H. apply (f_equal (@length Q)) in H. rewrite length_avg_distances in H.
    unfold zlen in En. simpl in H. lia. }
  destruct (maxl_spec _ Hne) as [Hin _].
  cbv zeta. apply Hlt, Qltb_lt in Hin. now rewrite Hin.
Qed.

Lemma uniform_cells_no_outlier_witness :
  exists a, analyze sqrt_fix grid3_uniform (15 # 10) false = Some a /\
            grid_size a = (3, 3) /\ results a = [].
Proof.
  apply (uniform_cells_no_outlier sqrt_fix grid3_uniform (200, 50, 50) (15 # 10) false 3 3
           [(1, 1, 9, 9); (10, 1, 10, 9); (20, 1, 10, 9);
            (1, 10, 9, 10); (10, 10, 10, 10); (20, 10, 10, 10);
            (1, 20, 9, 10); (10, 20, 10, 10); (20, 20, 10, 10)]).
  - intros q Hq. unfold Qeq in Hq. cbn [Qnum Qden] in Hq.
    assert (Qnum q = 0) as Hnum by lia.
    unfold sqrt_fix. rewrite Hnum, Qred_correct. reflexivity.
  - reflexivity.
  - split; [vm_compute; reflexivity |]. split; [vm_compute; reflexivity |].
    apply Forall_forall. intros row Hrow.
    unfold grid3_uniform in Hrow. apply in_map_iff in Hrow. destruct Hrow as [i [<- _]].
    vm_compute. reflexivity.
  - vm_compute. reflexivity.
  - intros cell Hin.
    repeat (destruct Hin as [<- | Hin];
            [apply all_equal_check; vm_compute; reflexivity |]).
    contradiction.
Defined.
